(** * raus: ranged unique id supplier — a shallow embedding of [raus.go]

    The development follows the source file top to bottom: the Go values the
    package manipulates ([int], [string], [error], [time.Duration]), the
    [Raus] struct and its constructor, the wire payload, the redis client as
    an interface, and then the three loops of [subscribe] (LISTING, LOCKING,
    WATCHING), [Get] and [publish]. *)

From Stdlib Require Import ZArith Lia Bool Ascii String List.
From stdpp Require Import base gmap sets list strings.

Local Open Scope Z_scope.

(** ** Go values *)

(** Go's [int] on the 64-bit targets: arithmetic wraps around silently. *)
Module GoInt.

Definition intSize : Z := 64.
Definition MaxInt : Z := 2 ^ 63 - 1.
Definition MinInt : Z := - 2 ^ 63.

Definition inRange (z : Z) : bool := (MinInt <=? z) && (z <=? MaxInt).

(** The value an [int] holds after an operation whose exact result is [z]. *)
Definition wrap (z : Z) : Z := (z + 2 ^ 63) mod 2 ^ 64 - 2 ^ 63.

(** [i++] *)
Definition incr (i : Z) : Z := wrap (i + 1).

End GoInt.

(** [time.Duration] counts nanoseconds. *)
Definition Second : Z := 1000000000.

(** The errors the package creates, one constructor per [errors.New] or
    [fmt.Errorf] site, and the errors handed back by the redis client. *)
Inductive error : Type :=
| ErrMinNegative                      (* "min should be greater than or equal to 0" *)
| ErrMaxNotGreater                    (* "max should be greater than min" *)
| ErrCanceled                         (* "canceled" *)
| ErrDuplicateUuid                    (* "duplicate uuid" *)
| ErrUnknownMessage                   (* "unknown redis message: %#v" *)
| ErrNoMoreId                         (* "no more available id" *)
| ErrDuplicateId                      (* "duplicate id detected" *)
| ErrUnexpectedData (payload : string) (* "unexpected data %s" *)
| ErrRedis (msg : string).            (* whatever the redis client reports *)

(** A Go result pair [(v, err)]. *)
Inductive result (A : Type) : Type :=
| Ok (a : A)
| Error (e : error).
Arguments Ok {A} a.
Arguments Error {A} e.

(** ** The pieces of the standard library the package calls *)

Module GoStrings.

(** [strings.Split(s, sep)] for a one-byte separator: the substrings between
    the separators, [count + 1] of them. *)
Fixpoint Split (s : string) (sep : ascii) : list string :=
  match s with
  | EmptyString => [EmptyString]
  | String c s' =>
      if Ascii.eqb c sep then EmptyString :: Split s' sep
      else match Split s' sep with
           | h :: t => String c h :: t
           | [] => [String c EmptyString]
           end
  end.

(** Whether byte [c] occurs in [s]. *)
Fixpoint contains (s : string) (c : ascii) : bool :=
  match s with
  | EmptyString => false
  | String a s' => Ascii.eqb a c || contains s' c
  end.

Definition isDigit (c : ascii) : bool :=
  let n := Z.of_N (N_of_ascii c) in (48 <=? n) && (n <=? 57).

(** [ch - '0'] for a byte that is a decimal digit. *)
Definition digitVal (c : ascii) : option Z :=
  if isDigit c then Some (Z.of_N (N_of_ascii c) - 48) else None.

(** [byte('0' + d)] *)
Definition digitChar (d : Z) : ascii := ascii_of_N (Z.to_N (48 + d)).

(** The digit loop of [strconv.Atoi]: [n = n*10 + int(ch)]. *)
Fixpoint parseDigits (s : string) (n : Z) : option Z :=
  match s with
  | EmptyString => Some n
  | String ch s' =>
      match digitVal ch with
      | Some d => parseDigits s' (n * 10 + d)
      | None => None
      end
  end.

(** At least one digit, nothing but digits. *)
Definition parseNumber (s : string) : option Z :=
  match s with
  | EmptyString => None
  | _ => parseDigits s 0
  end.

(** [strconv.Atoi]: an optional sign, decimal digits, and a value that fits
    an [int]; anything else is an error. *)
Definition Atoi (s : string) : option Z :=
  match s with
  | EmptyString => None
  | String c rest =>
      let v :=
        if Ascii.eqb c "-"%char then Z.opp <$> parseNumber rest
        else if Ascii.eqb c "+"%char then parseNumber rest
        else parseNumber s in
      match v with
      | Some n => if GoInt.inRange n then Some n else None
      | None => None
      end
  end.

(** The digit loop of [fmt]'s integer formatting: digits are produced from
    the least significant one, in front of what is already there. Twenty
    rounds cover every 64-bit magnitude. *)
Fixpoint fmtDigits (fuel : nat) (u : Z) (acc : string) : string :=
  match fuel with
  | O => acc
  | S f =>
      if u <? 10 then String (digitChar u) acc
      else fmtDigits f (u / 10) (String (digitChar (u mod 10)) acc)
  end.

(** The verb [%d] applied to an [int]. *)
Definition fmtInt (z : Z) : string :=
  if z <? 0 then String "-"%char (fmtDigits 20 (- z) EmptyString)
  else fmtDigits 20 z EmptyString.

End GoStrings.
Import GoStrings.

(** ** The struct and its constructor *)

(** A channel is known by its identity; [None] is the nil channel. *)
Definition chan : Type := nat.

Record Raus : Type := mkRaus {
  rand : nat -> Z;          (* the generator: its successive raw outputs *)
  uuid : string;
  id : Z;
  min : Z;
  max : Z;
  redisAddr : string;
  namespace : string;
  pubSubChannel : string;
  channel : chan;
}.

Definition ErrorID : Z := -1.
Definition maxCandidate : nat := 10.
Definition defaultNamespace : string := "raus"%string.
Definition pubSubChannelSuffix : string := ":broadcast"%string.

(** What [New] draws from its surroundings: the seeded generator, the fresh
    UUID and the channel it makes. *)
Record fresh : Type := mkFresh {
  fresh_rand : nat -> Z;
  fresh_uuid : string;
  fresh_chan : chan;
}.

Definition New (f : fresh) (addr : string) (min max : Z) : result Raus :=
  if min <? 0 then Error ErrMinNegative
  else if min >=? max then Error ErrMaxNotGreater
  else Ok {| rand := fresh_rand f;
             uuid := fresh_uuid f;
             id := 0;
             min := min;
             max := max;
             redisAddr := addr;
             namespace := defaultNamespace;
             pubSubChannel := defaultNamespace +:+ pubSubChannelSuffix;
             channel := fresh_chan f |}.

Definition SetNamespace (r : Raus) (n : string) : Raus :=
  {| rand := rand r; uuid := uuid r; id := id r; min := min r; max := max r;
     redisAddr := redisAddr r;
     namespace := n;
     pubSubChannel := n +:+ pubSubChannelSuffix;
     channel := channel r |}.

Definition size (r : Raus) : Z := GoInt.wrap (max r - min r).

Definition set_id (r : Raus) (i : Z) : Raus :=
  {| rand := rand r; uuid := uuid r; id := i; min := min r; max := max r;
     redisAddr := redisAddr r; namespace := namespace r;
     pubSubChannel := pubSubChannel r; channel := channel r |}.

(** [r.rand.Intn(n)]: the [k]-th draw, reduced into [0, n). *)
Definition Intn (r : Raus) (k : nat) (n : Z) : Z := rand r k mod n.

(** ** Wire payload and lock keys *)

Definition parsePayload (payload : string) : result (string * Z) :=
  match Split payload ":"%char with
  | [s0; s1] =>
      match Atoi s1 with
      | Some id => Ok (s0, id)
      | None => Error (ErrUnexpectedData payload)
      end
  | _ => Error (ErrUnexpectedData payload)
  end.

Definition newPayload (uuid : string) (id : Z) : string :=
  uuid +:+ ":"%string +:+ fmtInt id.

Definition candidateLockKey (r : Raus) (id : Z) : string :=
  namespace r +:+ ":id:"%string +:+ fmtInt id.

Definition lockKey (r : Raus) : string := candidateLockKey r (id r).

(** ** The surroundings: context, log, redis *)

(** What [log.Println] and [log.Printf] write, one constructor per call
    site of the package. *)
Inductive logline : Type :=
| LogError (e : error)                      (* log.Println(err) *)
| LogPeer (xuuid : string) (xid : Z)        (* "xuuid:%s xid:%d" *)
| LogCandidates (c : list Z)                (* "candidate ids: %v" *)
| LogTrying (key : string)                  (* "trying to get lock key" *)
| LogGotLock (id : Z)                       (* "got lock for" *)
| LogNoLock (id : Z)                        (* "could not get lock for" *)
| LogDuplicateId (xid : Z) (xuuid : string) (* "duplicate id %d from %s" *)
| LogShuttingDown                           (* "shutting down" *)
| LogLockRemoved (key : string).            (* "remove a lock key %s successfully" *)

(** A [context.Context]: the instant (on the clock that starts with
    [subscribe]) at which [Done] is closed, if it ever is. *)
Record context : Type := mkContext { cancelAt : option Z }.

Definition Done (ctx : context) (now : Z) : bool :=
  match cancelAt ctx with
  | Some t => t <=? now
  | None => false
  end.

(** How a loop body ends: next round, [break] out of the loop, or [return]
    from the function after raising [e]. *)
Inductive flow (A : Type) : Type :=
| Continue (a : A)
| Break (a : A)
| Return (e : error) (a : A).
Arguments Continue {A} a.
Arguments Break {A} a.
Arguments Return {A} e a.

(** The commands of [*redis.Client] the package issues, over whatever state
    [S] the server and the connection have. Each returns what [Err()] and
    [Val()] of the command give. *)
Class Redis (S : Type) : Type := {
  SetNX : string -> string -> Z -> S -> result bool * S;
  Set_ : string -> string -> Z -> S -> option error * S;
  Del : string -> S -> option error * S;
  Publish : string -> string -> S -> option error * S;
}.

(** What a subscription can hand to [ReceiveTimeout]. *)
Inductive redisMsg : Type :=
| Message (payload : string)   (* *redis.Message *)
| Subscription                 (* *redis.Subscription *)
| Pong.                        (* anything else, e.g. *redis.Pong *)

(** The next thing the connection delivers, and how long after the receive
    was issued it arrives. *)
Definition arrival : Type := (Z * result redisMsg)%type.

(** [pubsub.ReceiveTimeout(timeout)]: how long the call blocks and what it
    returns. Nothing within [timeout] is the i/o timeout error. *)
Definition ReceiveTimeout (timeout : Z) (next : option arrival)
  : Z * result redisMsg :=
  match next with
  | Some (d, m) =>
      if d <? timeout then (Z.max 0 d, m)
      else (timeout, Error (ErrRedis "i/o timeout"%string))
  | None => (timeout, Error (ErrRedis "i/o timeout"%string))
  end.

(** ** subscribe, first loop: LISTING *)

Definition timeout : Z := 3 * Second.

(** The variables of the loop, with a record of every receive it issued:
    [time.Since(start)] when it was issued and the timeout it was given.
    Time passes only while a receive blocks. *)
Record listing : Type := mkListing {
  elapsed : Z;
  usedIds : gset Z;
  receives : list (Z * Z);
  llog : list logline;
}.

Definition listing0 : listing :=
  {| elapsed := 0; usedIds := ∅; receives := []; llog := [] |}.

(** One round of the body, entered with [time.Since(start) < timeout]. *)
Definition LISTING_body (r : Raus) (ctx : context) (st : listing)
    (next : option arrival) : flow listing :=
  if Done ctx (elapsed st) then Return ErrCanceled st
  else
    let '(d, res) := ReceiveTimeout timeout next in
    let st1 := {| elapsed := elapsed st + d;
                  usedIds := usedIds st;
                  receives := receives st ++ [(elapsed st, timeout)];
                  llog := llog st |} in
    match res with
    | Error _ => Break st1
    | Ok (Message payload) =>
        match parsePayload payload with
        | Error e =>
            Continue {| elapsed := elapsed st1; usedIds := usedIds st1;
                        receives := receives st1;
                        llog := llog st1 ++ [LogError e] |}
        | Ok (xuuid, xid) =>
            if String.eqb xuuid (uuid r) then Return ErrDuplicateUuid st1
            else
              Continue {| elapsed := elapsed st1;
                          usedIds := {[xid]} ∪ usedIds st1;
                          receives := receives st1;
                          llog := llog st1 ++ [LogPeer xuuid xid] |}
        end
    | Ok Subscription => Continue st1
    | Ok Pong => Return ErrUnknownMessage st1
    end.

(** The loop over what the subscription delivers. When nothing is left to
    deliver the receive runs into its timeout. The result is the state at
    the end and the error raised, if the function returned from the loop. *)
Fixpoint LISTING (r : Raus) (ctx : context) (st : listing)
    (arrivals : list arrival) : listing * option error :=
  if elapsed st <? timeout then
    match arrivals with
    | [] =>
        match LISTING_body r ctx st None with
        | Continue st' | Break st' => (st', None)
        | Return e st' => (st', Some e)
        end
    | a :: rest =>
        match LISTING_body r ctx st (Some a) with
        | Continue st' => LISTING r ctx st' rest
        | Break st' => (st', None)
        | Return e st' => (st', Some e)
        end
    end
  else (st, None).

(** The loop is still running after it has taken all of [arrivals]: the
    state in which it meets the next round, if so. *)
Fixpoint LISTING_through (r : Raus) (ctx : context) (st : listing)
    (arrivals : list arrival) : option listing :=
  match arrivals with
  | [] => Some st
  | a :: rest =>
      if elapsed st <? timeout then
        match LISTING_body r ctx st (Some a) with
        | Continue st' => LISTING_through r ctx st' rest
        | _ => None
        end
      else None
  end.

(** ** subscribe, second loop: LOCKING *)

(** The scan [for i := r.min; i <= r.max; i++]. [usedIds[i]] of a
    [map[int]bool] that only ever stores [true] is membership. The loop
    runs as long as its condition says, so the model carries fuel. *)
Fixpoint scan (fuel : nat) (max : Z) (used : gset Z) (i : Z)
    (candidate : list Z) : option (list Z) :=
  match fuel with
  | O => None
  | S fuel' =>
      if i <=? max then
        if decide (i ∈ used) then scan fuel' max used (GoInt.incr i) candidate
        else
          let candidate' := candidate ++ [i] in
          if (maxCandidate <=? length candidate')%nat then Some candidate'
          else scan fuel' max used (GoInt.incr i) candidate'
      else Some candidate
  end.

Definition candidates (fuel : nat) (r : Raus) (used : gset Z)
  : option (list Z) :=
  scan fuel (max r) used (min r) [].

(** The variables of the loop: the connection, the table, how many draws
    the generator has given, the log. *)
Record locking (S : Type) : Type := mkLocking {
  conn : S;
  used : gset Z;
  draws : nat;
  klog : list logline;
}.
Arguments mkLocking {S}.
Arguments conn {S}.
Arguments used {S}.
Arguments draws {S}.
Arguments klog {S}.

Section Locking.
Context {S : Type} `{Redis S}.

(** One round. [Break] carries the struct with [r.id] set. *)
Definition LOCKING_body (fuel : nat) (r : Raus) (st : locking S)
  : option (flow (Raus * locking S)) :=
  match candidates fuel r (used st) with
  | None => None
  | Some [] => Some (Return ErrNoMoreId (r, st))
  | Some candidate =>
      let id := nth (Z.to_nat (Intn r (draws st) (Z.of_nat (length candidate))))
                    candidate 0 in
      let key := candidateLockKey r id in
      let '(res, c') := SetNX key (uuid r) (60 * Second) (conn st) in
      let lg := klog st ++ [LogCandidates candidate; LogTrying key] in
      match res with
      | Error e =>
          Some (Return e (r, {| conn := c'; used := used st;
                                draws := Datatypes.S (draws st); klog := lg |}))
      | Ok true =>
          Some (Break (set_id r id,
                       {| conn := c'; used := used st;
                          draws := Datatypes.S (draws st);
                          klog := lg ++ [LogGotLock id] |}))
      | Ok false =>
          Some (Continue (r, {| conn := c'; used := {[id]} ∪ used st;
                                draws := Datatypes.S (draws st);
                                klog := lg ++ [LogNoLock id] |}))
      end
  end.

(** The loop. [None] is the raised error of a [return]; on [break] the
    first component is the struct that holds the id. *)
Fixpoint LOCKING (rounds fuel : nat) (r : Raus) (st : locking S)
  : option (Raus * locking S * option error) :=
  match rounds with
  | O => None
  | Datatypes.S rounds' =>
      match LOCKING_body fuel r st with
      | None => None
      | Some (Continue (r', st')) => LOCKING rounds' fuel r' st'
      | Some (Break (r', st')) => Some (r', st', None)
      | Some (Return e (r', st')) => Some (r', st', Some e)
      end
  end.

End Locking.

(** ** subscribe, third loop: WATCHING *)

(** What the watcher has sent on [r.channel] so far, and its log. *)
Record watching : Type := mkWatching {
  posted : list error;
  wlog : list logline;
}.

(** One round, on what [pubsub.ReceiveMessage()] returned. *)
Definition WATCHING_body (r : Raus) (st : watching) (got : result string)
  : flow watching :=
  match got with
  | Error e => Continue {| posted := posted st; wlog := wlog st ++ [LogError e] |}
  | Ok payload =>
      match parsePayload payload with
      | Error e =>
          Continue {| posted := posted st; wlog := wlog st ++ [LogError e] |}
      | Ok (xuuid, xid) =>
          if (xid =? id r) && negb (String.eqb xuuid (uuid r)) then
            Return ErrDuplicateId
              {| posted := posted st ++ [ErrDuplicateId];
                 wlog := wlog st ++ [LogDuplicateId xid xuuid] |}
          else Continue st
      end
  end.

(** The loop never leaves by itself: over the messages received so far it
    has either returned ([true]) or is waiting for the next one. *)
Fixpoint WATCHING (r : Raus) (st : watching) (got : list (result string))
  : watching * bool :=
  match got with
  | [] => (st, false)
  | g :: rest =>
      match WATCHING_body r st g with
      | Continue st' | Break st' => WATCHING r st' rest
      | Return _ st' => (st', true)
      end
  end.

(** How the tail of [subscribe] stands: in the loop waiting for the next
    message, returned, or dead of a nil pointer. *)
Inductive ending : Type :=
| Receiving
| Returned
| Panicked.

(** The tail of [subscribe]: the second [c.Subscribe], then the loop. When
    that [Subscribe] fails ([sub] is its error) the error is raised but,
    unlike after the first [Subscribe], the function does not return:
    [pubsub] is nil, and once the error has been taken from the channel
    the first [pubsub.ReceiveMessage()] dereferences it and the process
    panics, whatever there is to receive. *)
Definition watch (r : Raus) (sub : option error) (got : list (result string))
  : watching * ending :=
  match sub with
  | Some e => ({| posted := [e]; wlog := [] |}, Panicked)
  | None =>
      let out := WATCHING r {| posted := []; wlog := [] |} got in
      (out.1, if out.2 then Returned else Receiving)
  end.

(** ** subscribe up to its first send, and Get *)

Record acquired (S : Type) : Type := mkAcquired {
  self : Raus;               (* the struct, [id] set on success *)
  link : S;                  (* the connection afterwards *)
  heard : listing;           (* how LISTING ended *)
  alog : list logline;       (* the log of LOCKING *)
  first : option error;      (* the first value sent on [r.channel] *)
}.
Arguments mkAcquired {S}.
Arguments self {S}.
Arguments link {S}.
Arguments heard {S}.
Arguments alog {S}.
Arguments first {S}.

Section Acquire.
Context {S : Type} `{Redis S}.

(** [subscribe] from its start to the first [r.channel <- v]: the first
    [c.Subscribe] (its error, if any, is [sub]), LISTING, the check of
    [ctx.Err()], LOCKING. The table starts empty; the memory that
    [make(map[int]bool, r.size())] reserves for it is not part of the
    model, so nothing here says that the allocation succeeds. *)
Definition acquire (fuel : nat) (r : Raus) (ctx : context)
    (sub : option error) (arrivals : list arrival) (c : S)
  : option (acquired S) :=
  match sub with
  | Some e =>
      Some {| self := r; link := c; heard := listing0; alog := [];
              first := Some e |}
  | None =>
      match LISTING r ctx listing0 arrivals with
      | (st, Some e) =>
          Some {| self := r; link := c; heard := st; alog := [];
                  first := Some e |}
      | (st, None) =>
          if Done ctx (elapsed st) then
            Some {| self := r; link := c; heard := st; alog := [];
                    first := Some ErrCanceled |}
          else
            match LOCKING fuel fuel r
                    {| conn := c; used := usedIds st; draws := O; klog := [] |}
            with
            | None => None
            | Some (r', st', e) =>
                Some {| self := r'; link := conn st'; heard := st;
                        alog := klog st'; first := e |}
            end
      end
  end.

(** [Get]: the Go triple [(int, chan error, error)]. *)
Definition Get (fuel : nat) (r : Raus) (ctx : context)
    (sub : option error) (arrivals : list arrival) (c : S)
  : option (Z * option chan * option error) :=
  match acquire fuel r ctx sub arrivals c with
  | None => None
  | Some a =>
      match first a with
      | Some err => Some (ErrorID, None, Some err)
      | None => Some (id (self a), Some (channel (self a)), None)
      end
  end.

(** [subscribe] as a whole, over the messages there are for the watcher
    so far: the values it has sent on [r.channel], in order ([None] is
    nil), and how it stands. [sub2] is the error of the second
    [c.Subscribe], if any. *)
Definition subscribe (fuel : nat) (r : Raus) (ctx : context)
    (sub : option error) (arrivals : list arrival) (c : S)
    (sub2 : option error) (got : list (result string))
  : option (list (option error) * ending) :=
  match acquire fuel r ctx sub arrivals c with
  | None => None
  | Some a =>
      match first a with
      | Some e => Some ([Some e], Returned)
      | None =>
          let w := watch (self a) sub2 got in
          Some (None :: (Some <$> posted w.1), w.2)
      end
  end.

(** ** publish *)

(** One tick of the ticker; [done] tells whether [ctx.Done()] is closed
    when it fires. [Break] is the [return]. *)
Definition publish_tick (r : Raus) (payload : string) (done : bool)
    (st : S * list logline) : flow (S * list logline) :=
  let '(c, lg) := st in
  if done then
    let '(err, c1) := Del (lockKey r) c in
    match err with
    | Some e => Break (c1, lg ++ [LogShuttingDown; LogError e])
    | None => Break (c1, lg ++ [LogShuttingDown; LogLockRemoved (lockKey r)])
    end
  else
    let '(err, c1) := Publish (pubSubChannel r) payload c in
    match err with
    | Some e => Continue (c1, lg ++ [LogError e])
    | None =>
        let '(err2, c2) := Set_ (lockKey r) (uuid r) (60 * Second) c1 in
        match err2 with
        | Some e => Continue (c2, lg ++ [LogError e])
        | None => Continue (c2, lg)
        end
    end.

(** The ticker loop over the ticks that have fired; the flag tells whether
    the function has returned. *)
Fixpoint publish_loop (r : Raus) (payload : string) (ticks : list bool)
    (st : S * list logline) : S * list logline * bool :=
  match ticks with
  | [] => (st, false)
  | done :: rest =>
      match publish_tick r payload done st with
      | Continue st' => publish_loop r payload rest st'
      | Break st' | Return _ st' => (st', true)
      end
  end.

Definition publish (r : Raus) (ticks : list bool) (c : S)
  : S * list logline * bool :=
  publish_loop r (newPayload (uuid r) (id r)) ticks (c, []).

End Acquire.

(** ** Two redis servers *)

(** A server that answers from a script and keeps the commands it was
    sent. For a command other than SETNX both [Won] and [Lost] mean that it
    went through; with the script used up every command goes through. *)
Inductive call : Type :=
| CallSetNX (key val : string) (ttl : Z)
| CallSet (key val : string) (ttl : Z)
| CallDel (key : string)
| CallPublish (ch msg : string).

Inductive answer : Type :=
| Won
| Lost
| Failed (msg : string).

Record recorder : Type := mkRecorder {
  answers : list answer;
  calls : list call;
}.

Definition record (c : call) (s : recorder) : answer * recorder :=
  match answers s with
  | [] => (Won, {| answers := []; calls := calls s ++ [c] |})
  | a :: rest => (a, {| answers := rest; calls := calls s ++ [c] |})
  end.

Definition went_through (a : answer) : option error :=
  match a with
  | Failed m => Some (ErrRedis m)
  | _ => None
  end.

#[export] Instance recorder_redis : Redis recorder := {|
  SetNX key val ttl s :=
    let '(a, s') := record (CallSetNX key val ttl) s in
    (match a with
     | Won => Ok true
     | Lost => Ok false
     | Failed m => Error (ErrRedis m)
     end, s');
  Set_ key val ttl s :=
    let '(a, s') := record (CallSet key val ttl) s in (went_through a, s');
  Del key s :=
    let '(a, s') := record (CallDel key) s in (went_through a, s');
  Publish ch msg s :=
    let '(a, s') := record (CallPublish ch msg) s in (went_through a, s');
|}.

(** Modelled from the spec: the store of section 6, which is not part of
    the repository, taken at its word ("setnx: conditional create; returns
    whether it won", "set: unconditional write with TTL refresh", "del:
    delete", lock keys with a TTL). A table of values with the instant each
    one expires, and a clock; a key is there while the clock is before its
    expiry; SETNX writes only where no key is there. *)
Record server : Type := mkServer {
  now : Z;
  table : gmap string (string * Z);
}.

Definition holder (s : server) (key : string) : option string :=
  match table s !! key with
  | Some (v, expiry) => if now s <? expiry then Some v else None
  | None => None
  end.

Definition write (key val : string) (ttl : Z) (s : server) : server :=
  {| now := now s; table := <[key := (val, now s + ttl)]> (table s) |}.

#[export] Instance server_redis : Redis server := {|
  SetNX key val ttl s :=
    match holder s key with
    | Some _ => (Ok false, s)
    | None => (Ok true, write key val ttl s)
    end;
  Set_ key val ttl s := (None, write key val ttl s);
  Del key s := (None, {| now := now s; table := delete key (table s) |});
  Publish ch msg s := (None, s);
|}.

(** ** Several sessions against one server *)

(** Where a session stands once it has left LISTING: in LOCKING with its
    table and its count of draws, holding an id (its publisher ticking),
    gone after a cancelled tick released the lock, or failed. *)
Inductive phase : Type :=
| CLAIMING (used : gset Z) (draws : nat)
| OWNING
| CANCELED
| FAILED (e : error).

Record session : Type := mkSession {
  who : Raus;
  stage : phase;
}.

(** The server and the sessions, each known by its uuid. *)
Record fleet : Type := mkFleet {
  redis : server;
  members : gmap string session;
}.

Definition fleet0 : fleet := {| redis := {| now := 0; table := ∅ |}; members := ∅ |}.

(** What can happen next. Every command a session sends is one event, so
    the sessions interleave command by command. *)
Inductive event : Type :=
| Elapse (d : Z)                      (* [d] nanoseconds pass *)
| Enter (r : Raus) (used : gset Z)    (* a new session leaves LISTING with [used] *)
| Attempt (u : string) (fuel : nat)   (* session [u] runs one round of LOCKING *)
| Tick (u : string) (done : bool).    (* the ticker of session [u] fires *)

Definition step (e : event) (σ : fleet) : option fleet :=
  match e with
  | Elapse d =>
      if 0 <? d then
        Some {| redis := {| now := now (redis σ) + d; table := table (redis σ) |};
                members := members σ |}
      else None
  | Enter r used =>
      match members σ !! uuid r with
      | Some _ => None
      | None =>
          Some {| redis := redis σ;
                  members := <[uuid r := {| who := r; stage := CLAIMING used O |}]>
                               (members σ) |}
      end
  | Attempt u fuel =>
      match members σ !! u with
      | Some {| who := r; stage := CLAIMING us k |} =>
          match LOCKING_body fuel r
                  {| conn := redis σ; used := us; draws := k; klog := [] |}
          with
          | None => None
          | Some (Continue (r', st')) =>
              Some {| redis := conn st';
                      members := <[u := {| who := r';
                                           stage := CLAIMING (used st') (draws st') |}]>
                                   (members σ) |}
          | Some (Break (r', st')) =>
              Some {| redis := conn st';
                      members := <[u := {| who := r'; stage := OWNING |}]> (members σ) |}
          | Some (Return e (r', st')) =>
              Some {| redis := conn st';
                      members := <[u := {| who := r'; stage := FAILED e |}]> (members σ) |}
          end
      | _ => None
      end
  | Tick u done =>
      match members σ !! u with
      | Some {| who := r; stage := OWNING |} =>
          match publish_tick r (newPayload (uuid r) (id r)) done (redis σ, []) with
          | Continue (c, _) => Some {| redis := c; members := members σ |}
          | Break (c, _) | Return _ (c, _) =>
              Some {| redis := c;
                      members := <[u := {| who := r; stage := CANCELED |}]> (members σ) |}
          end
      | _ => None
      end
  end.

(** Whether an owner's lock key outlives the next [d] nanoseconds. *)
Definition lease_kept (s : server) (d : Z) (m : session) : bool :=
  match stage m with
  | OWNING =>
      match table s !! lockKey (who m) with
      | Some (_, expiry) => now s + d <? expiry
      | None => true
      end
  | _ => true
  end.

(** Time passes only as far as no owner's lock key expires: every owner
    refreshes within the TTL. *)
Definition in_time (σ : fleet) (e : event) : bool :=
  match e with
  | Elapse d => forallb (fun um => lease_kept (redis σ) d um.2) (map_to_list (members σ))
  | _ => true
  end.

Definition any_time (σ : fleet) (e : event) : bool := true.

(** A run: the events in order, each allowed by [guard]. *)
Fixpoint run (guard : fleet -> event -> bool) (es : list event) (σ : fleet)
  : option fleet :=
  match es with
  | [] => Some σ
  | e :: rest =>
      if guard σ e then
        match step e σ with
        | Some σ' => run guard rest σ'
        | None => None
        end
      else None
  end.

(** No two sessions of one namespace own the same id. *)
Definition distinct_owners (σ : fleet) : Prop :=
  forall u1 u2 m1 m2,
    members σ !! u1 = Some m1 -> members σ !! u2 = Some m2 -> u1 <> u2 ->
    stage m1 = OWNING -> stage m2 = OWNING ->
    namespace (who m1) = namespace (who m2) ->
    id (who m1) <> id (who m2).

(** A message that makes the watcher raise: it parses, names the id this
    session owns, and comes from another uuid. *)
Definition duplicate (r : Raus) (got : result string) : bool :=
  match got with
  | Ok payload =>
      match parsePayload payload with
      | Ok (xuuid, xid) => (xid =? id r) && negb (String.eqb xuuid (uuid r))
      | Error _ => false
      end
  | Error _ => false
  end.

(** What the scripted server answers to the next command. *)
Definition next_answer (s : recorder) : answer := hd Won (answers s).

Definition failed (a : answer) : bool :=
  match a with Failed _ => true | _ => false end.

(** The ids of [min..max], in ascending order, that are not in the table:
    what the scan is meant to go through. *)
Definition free_ids (r : Raus) (used : gset Z) : list Z :=
  filter (fun i => i ∉ used) (seqZ (min r) (max r - min r + 1)).

(** The SETNX with which a session tries for id [c]. *)
Definition claim_call (r : Raus) (c : Z) : call :=
  CallSetNX (candidateLockKey r c) (uuid r) (60 * Second).

(** Every session is filed under its own uuid, and every owner's lock key
    is there, unexpired, with the owner's uuid as its value. *)
Definition leases_held (σ : fleet) : Prop :=
  forall u m,
    members σ !! u = Some m ->
    uuid (who m) = u /\
    (stage m = OWNING ->
     exists expiry,
       table (redis σ) !! lockKey (who m) = Some (u, expiry) /\
       now (redis σ) < expiry).

(** The struct [New] makes for uuid [u] and the range [0,1]. *)
Definition peer (u : string) : Raus :=
  {| rand := fun _ => 0; uuid := u; id := 0; min := 0; max := 1;
     redisAddr := "localhost:6379"%string; namespace := defaultNamespace;
     pubSubChannel := "raus:broadcast"%string; channel := O |}.

(** [strings.Count(s, sep)] for a one-byte separator. *)
Fixpoint Count (s : string) (c : ascii) : nat :=
  match s with
  | EmptyString => O
  | String a s' => if Ascii.eqb a c then Datatypes.S (Count s' c) else Count s' c
  end.

(** * Properties *)

(** ** Go values *)

Section GoIntFacts.
Import GoInt.

Lemma wrap_id z : MinInt <= z <= MaxInt -> wrap z = z.
Proof.
  unfold wrap, MinInt, MaxInt. intros H.
  rewrite Z.mod_small; lia.
Qed.

Lemma wrap_range z : MinInt <= wrap z <= MaxInt.
Proof.
  unfold wrap, MinInt, MaxInt.
  pose proof (Z.mod_pos_bound (z + 2 ^ 63) (2 ^ 64) ltac:(lia)). lia.
Qed.

Lemma incr_below i : MinInt <= i < MaxInt -> incr i = i + 1.
Proof. intros H. unfold incr. apply wrap_id. lia. Qed.

Lemma incr_MaxInt : incr MaxInt = MinInt.
Proof. reflexivity. Qed.

Lemma inRange_spec z : inRange z = true <-> MinInt <= z <= MaxInt.
Proof. unfold inRange. rewrite andb_true_iff, !Z.leb_le. tauto. Qed.

End GoIntFacts.

(** ** Payloads on small inputs *)

Local Open Scope string_scope.
Example parsePayload_ex1 : parsePayload "N1:12" = Ok ("N1", 12).
Proof. reflexivity. Qed.
Example parsePayload_ex2 : parsePayload "a:b:3" = Error (ErrUnexpectedData "a:b:3").
Proof. reflexivity. Qed.
Example parsePayload_ex3 : parsePayload "N1:-7" = Ok ("N1", -7).
Proof. reflexivity. Qed.
Example parsePayload_ex4 : parsePayload "N1:" = Error (ErrUnexpectedData "N1:").
Proof. reflexivity. Qed.
Example newPayload_ex : newPayload "N1" (-120) = "N1:-120".
Proof. reflexivity. Qed.
Local Close Scope string_scope.

(** ** The constructor *)

(** C9. [New] fails exactly when [min < 0] or [min >= max], so in
    particular when [min = max]; otherwise it produces a struct for the
    given range whose namespace is ["raus"] and whose broadcast channel is
    ["raus:broadcast"]. *)
Theorem New_config (f : fresh) (addr : string) (mn mx : Z) :
  ((exists e, New f addr mn mx = Error e) <-> (mn < 0 \/ mn >= mx)) /\
  (exists e, New f addr mn mn = Error e) /\
  match New f addr mn mx with
  | Error e => e = ErrMinNegative \/ e = ErrMaxNotGreater
  | Ok r =>
      min r = mn /\ max r = mx /\ uuid r = fresh_uuid f /\
      namespace r = "raus"%string /\
      pubSubChannel r = "raus:broadcast"%string
  end.
Proof.
  unfold New. repeat split.
  - intros [e He].
    destruct (Z.ltb_spec mn 0); [lia |].
    destruct (Z.geb_spec mn mx); [lia | discriminate].
  - intros Hbad.
    destruct (Z.ltb_spec mn 0); [eauto |].
    destruct (Z.geb_spec mn mx); [eauto | lia].
  - destruct (Z.ltb_spec mn 0); [eauto |].
    destruct (Z.geb_spec mn mn); [eauto | lia].
  - destruct (mn <? 0); [auto |].
    destruct (mn >=? mx); [auto |]. simpl. auto.
Qed.

Local Open Scope string_scope.
(** [New] on the range [5,5]. *)
Lemma New_config_witness :
  exists e, New (mkFresh (fun _ => 0) "A" 0%nat) "localhost:6379" 5 5 = Error e.
Proof.
  apply (proj1 (New_config (mkFresh (fun _ => 0) "A" 0%nat) "localhost:6379" 5 5)).
  right. lia.
Defined.
Local Close Scope string_scope.

Lemma SetNamespace_keys (r : Raus) (n : string) (i : Z) :
  pubSubChannel (SetNamespace r n) = (n +:+ ":broadcast")%string /\
  candidateLockKey (SetNamespace r n) i = (n +:+ ":id:" +:+ fmtInt i)%string /\
  uuid (SetNamespace r n) = uuid r /\ id (SetNamespace r n) = id r.
Proof. repeat split. Qed.

(** ** Decimal text and the wire payload *)

Lemma digitVal_digitChar d : 0 <= d < 10 -> digitVal (digitChar d) = Some d.
Proof.
  intros Hd.
  assert (Hc : d = 0 \/ d = 1 \/ d = 2 \/ d = 3 \/ d = 4 \/ d = 5 \/ d = 6 \/
               d = 7 \/ d = 8 \/ d = 9) by lia.
  repeat (destruct Hc as [-> | Hc]; [reflexivity |]). subst. reflexivity.
Qed.

Lemma parseDigits_fmtDigits fuel : forall u acc,
  0 <= u < 10 ^ Z.of_nat fuel ->
  parseDigits (fmtDigits fuel u acc) 0 = parseDigits acc u.
Proof.
  induction fuel as [| fuel IH]; intros u acc Hu.
  - simpl in *. replace u with 0 by lia. reflexivity.
  - rewrite Nat2Z.inj_succ, Z.pow_succ_r in Hu by lia.
    simpl. destruct (Z.ltb_spec u 10).
    + simpl. rewrite digitVal_digitChar by lia. reflexivity.
    + rewrite IH.
      * simpl. rewrite digitVal_digitChar by (apply Z.mod_pos_bound; lia).
        f_equal. pose proof (Z.div_mod u 10). lia.
      * split; [apply Z.div_pos; lia |].
        apply Z.div_lt_upper_bound; lia.
Qed.

Lemma fmtDigits_nonempty fuel u acc :
  fmtDigits (S fuel) u acc <> EmptyString.
Proof.
  revert u acc. induction fuel as [| fuel IH]; intros u acc; simpl.
  - destruct (u <? 10); discriminate.
  - destruct (u <? 10); [discriminate |]. apply (IH (u / 10)).
Qed.

Lemma parseNumber_fmtDigits u :
  0 <= u < 10 ^ 20 -> parseNumber (fmtDigits 20 u EmptyString) = Some u.
Proof.
  intros Hu. unfold parseNumber.
  destruct (fmtDigits 20 u EmptyString) eqn:E.
  - exfalso. revert E. apply fmtDigits_nonempty.
  - rewrite <- E. rewrite parseDigits_fmtDigits by (simpl Z.of_nat; lia).
    reflexivity.
Qed.

(** [%d] and [Atoi] are inverse on every [int]. *)
Lemma Atoi_fmtInt z :
  GoInt.MinInt <= z <= GoInt.MaxInt -> Atoi (fmtInt z) = Some z.
Proof.
  unfold GoInt.MinInt, GoInt.MaxInt. intros Hz.
  assert (Hr : GoInt.inRange z = true) by (apply inRange_spec; exact Hz).
  unfold fmtInt. destruct (Z.ltb_spec z 0).
  - unfold Atoi. simpl Ascii.eqb. cbv iota.
    rewrite parseNumber_fmtDigits by lia. simpl fmap.
    rewrite Z.opp_involutive, Hr. reflexivity.
  - pose proof (parseNumber_fmtDigits z ltac:(lia)) as Hp.
    unfold Atoi. destruct (fmtDigits 20 z EmptyString) as [| c rest] eqn:E.
    + discriminate.
    + destruct (Ascii.eqb_spec c "-"%char) as [-> | _].
      { simpl in Hp. discriminate. }
      destruct (Ascii.eqb_spec c "+"%char) as [-> | _].
      { simpl in Hp. discriminate. }
      rewrite Hp, Hr. reflexivity.
Qed.

Lemma parseDigits_no_colon s : forall n,
  is_Some (parseDigits s n) -> contains s ":"%char = false.
Proof.
  induction s as [| c s IH]; intros n Hs; [reflexivity |].
  simpl in *. destruct (digitVal c) as [d |] eqn:Ed.
  - rewrite (IH _ Hs), orb_false_r.
    destruct (Ascii.eqb_spec c ":"%char) as [-> | _]; [discriminate | reflexivity].
  - destruct Hs as [? Hs]. discriminate.
Qed.

Lemma fmtInt_no_colon z :
  GoInt.MinInt <= z <= GoInt.MaxInt -> contains (fmtInt z) ":"%char = false.
Proof.
  unfold GoInt.MinInt, GoInt.MaxInt. intros Hz.
  unfold fmtInt. destruct (Z.ltb_spec z 0).
  - change (contains (fmtDigits 20 (- z) EmptyString) ":"%char = false).
    apply (parseDigits_no_colon _ 0).
    rewrite parseDigits_fmtDigits by (simpl Z.of_nat; lia). simpl. eauto.
  - apply (parseDigits_no_colon _ 0).
    rewrite parseDigits_fmtDigits by (simpl Z.of_nat; lia). simpl. eauto.
Qed.

Lemma Split_no_sep s c : contains s c = false -> Split s c = [s].
Proof.
  induction s as [| a s IH]; [reflexivity |].
  simpl. intros Hc. apply orb_false_iff in Hc as [Ha Hs].
  rewrite Ha, (IH Hs). reflexivity.
Qed.

Lemma Split_append s t c :
  contains s c = false ->
  Split (s +:+ String c t) c = s :: Split t c.
Proof.
  induction s as [| a s IH]; simpl.
  - intros _. rewrite Ascii.eqb_refl. reflexivity.
  - intros Hc. apply orb_false_iff in Hc as [Ha Hs].
    rewrite Ha, (IH Hs). reflexivity.
Qed.

Lemma parsePayload_newPayload nonce i :
  contains nonce ":"%char = false ->
  GoInt.MinInt <= i <= GoInt.MaxInt ->
  parsePayload (newPayload nonce i) = Ok (nonce, i).
Proof.
  intros Hn Hi. unfold parsePayload, newPayload.
  change (":" +:+ fmtInt i)%string with (String ":"%char (fmtInt i)).
  rewrite Split_append by exact Hn.
  rewrite Split_no_sep by (apply fmtInt_no_colon; exact Hi).
  rewrite Atoi_fmtInt by exact Hi. reflexivity.
Qed.

Lemma parsePayload_Error p e :
  parsePayload p = Error e -> e = ErrUnexpectedData p.
Proof.
  unfold parsePayload. intros Hp.
  repeat (match type of Hp with context [match ?x with _ => _ end] => destruct x end);
    congruence.
Qed.

(** C8. A payload made from a nonce without [':'] and an [int] parses back
    to that nonce and that id. A payload is rejected exactly when splitting
    it at [':'] does not give two parts of which [Atoi] accepts the second;
    LISTING and WATCHING then log the error and go on to the next message
    with their variables as they were. *)
Theorem payload_roundtrip_and_rejection :
  (forall nonce i,
     contains nonce ":"%char = false ->
     GoInt.MinInt <= i <= GoInt.MaxInt ->
     parsePayload (newPayload nonce i) = Ok (nonce, i)) /\
  (forall p,
     (exists e, parsePayload p = Error e) <->
     ~ (exists s0 s1 n, Split p ":"%char = [s0; s1] /\ Atoi s1 = Some n)) /\
  (forall p e r ctx st d w,
     parsePayload p = Error e ->
     WATCHING_body r w (Ok p) =
       Continue {| posted := posted w; wlog := wlog w ++ [LogError e] |} /\
     (elapsed st < timeout -> Done ctx (elapsed st) = false -> d < timeout ->
      LISTING_body r ctx st (Some (d, Ok (Message p))) =
        Continue {| elapsed := elapsed st + Z.max 0 d;
                    usedIds := usedIds st;
                    receives := receives st ++ [(elapsed st, timeout)];
                    llog := llog st ++ [LogError e] |})).
Proof.
  split; [exact parsePayload_newPayload |]. split.
  - intros p. unfold parsePayload. split.
    + intros [e He] (s0 & s1 & n & Hs & Ha). rewrite Hs, Ha in He. discriminate.
    + intros Hno.
      destruct (Split p ":"%char) as [| s0 [| s1 [| s2 l]]]; eauto.
      destruct (Atoi s1) as [n |] eqn:Ea; eauto.
      exfalso. apply Hno. eauto.
  - intros p e r ctx st d w Hp. split.
    + unfold WATCHING_body. rewrite Hp. reflexivity.
    + intros _ Hd Hlt. unfold LISTING_body, ReceiveTimeout. rewrite Hd.
      destruct (Z.ltb_spec d timeout); [| lia]. rewrite Hp. reflexivity.
Qed.

Local Open Scope string_scope.
(** The round trip at a concrete nonce and id. *)
Lemma payload_roundtrip_witness :
  parsePayload (newPayload "6ba7b810-9dad" 42) = Ok ("6ba7b810-9dad", 42).
Proof.
  apply (proj1 payload_roundtrip_and_rejection "6ba7b810-9dad" 42).
  - reflexivity.
  - unfold GoInt.MinInt, GoInt.MaxInt. lia.
Defined.
Local Close Scope string_scope.

(** ** The watcher *)

Lemma duplicate_spec r got :
  duplicate r got = true <->
  exists payload xuuid,
    got = Ok payload /\ parsePayload payload = Ok (xuuid, id r) /\
    xuuid <> uuid r.
Proof.
  unfold duplicate. split.
  - destruct got as [payload | e]; [| discriminate].
    destruct (parsePayload payload) as [[xuuid xid] | e] eqn:Ep; [| discriminate].
    intros Hd. apply andb_true_iff in Hd as [Hi Hu].
    apply Z.eqb_eq in Hi. subst xid.
    exists payload, xuuid. split; [reflexivity | split; [exact Ep |]].
    intros ->. rewrite String.eqb_refl in Hu. discriminate.
  - intros (payload & xuuid & -> & -> & Hne).
    rewrite Z.eqb_refl. apply String.eqb_neq in Hne. rewrite Hne. reflexivity.
Qed.

Lemma WATCHING_body_duplicate r st got :
  duplicate r got = true ->
  exists lg, WATCHING_body r st got =
    Return ErrDuplicateId {| posted := posted st ++ [ErrDuplicateId]; wlog := lg |}.
Proof.
  unfold duplicate, WATCHING_body.
  destruct got as [payload | e]; [| discriminate].
  destruct (parsePayload payload) as [[xuuid xid] | e]; [| discriminate].
  intros ->. eauto.
Qed.

Lemma WATCHING_body_other r st got :
  duplicate r got = false ->
  exists lg, WATCHING_body r st got = Continue {| posted := posted st; wlog := lg |}.
Proof.
  unfold duplicate, WATCHING_body.
  destruct got as [payload | e]; [| eauto].
  destruct (parsePayload payload) as [[xuuid xid] | e]; [| eauto].
  intros ->. destruct st. eauto.
Qed.

Lemma WATCHING_spec r : forall got st,
  let out := WATCHING r st got in
  (out.2 = true <-> existsb (duplicate r) got = true) /\
  posted out.1 = posted st ++ (if out.2 then [ErrDuplicateId] else []).
Proof.
  induction got as [| g rest IH]; intros st; simpl.
  - split; [split; discriminate | symmetry; apply app_nil_r].
  - destruct (duplicate r g) eqn:Ed.
    + destruct (WATCHING_body_duplicate r st g Ed) as [lg ->]. simpl.
      split; [tauto | reflexivity].
    + destruct (WATCHING_body_other r st g Ed) as [lg ->]. simpl.
      apply (IH {| posted := posted st; wlog := lg |}).
Qed.

(** C5. With its subscription open, over any messages the watcher returns
    exactly when one of them is a well-formed payload whose id is the
    owned id and whose uuid is not the session's own, and [duplicate id
    detected] is then the one thing it has sent; otherwise it has sent
    nothing and is still receiving. A payload that does not parse is
    logged and the loop goes on. When the second [Subscribe] failed the
    watcher receives nothing at all: it raises that error and panics, and
    never sends [duplicate id detected]. *)
Theorem watcher_raises_on_duplicate_only (r : Raus) (got : list (result string)) :
  ((watch r None got).2 = Returned <->
   exists payload xuuid,
     In (Ok payload) got /\ parsePayload payload = Ok (xuuid, id r) /\
     xuuid <> uuid r) /\
  (watch r None got).2 <> Panicked /\
  posted (watch r None got).1 =
    match (watch r None got).2 with
    | Returned => [ErrDuplicateId]
    | _ => []
    end /\
  (forall e,
     watch r (Some e) got = ({| posted := [e]; wlog := [] |}, Panicked)) /\
  (forall st payload e,
     parsePayload payload = Error e ->
     WATCHING_body r st (Ok payload) =
       Continue {| posted := posted st; wlog := wlog st ++ [LogError e] |}).
Proof.
  unfold watch.
  destruct (WATCHING_spec r got {| posted := []; wlog := [] |}) as [Hfin Hposted].
  destruct (WATCHING r {| posted := []; wlog := [] |} got) as [w fin].
  simpl in *. split; [| split; [| split; [| split]]].
  - rewrite existsb_exists in Hfin.
    split.
    + intros Hret. assert (Ht : fin = true) by (destruct fin; [reflexivity | discriminate]).
      apply Hfin in Ht as (g & Hin & Hd).
      apply duplicate_spec in Hd as (payload & xuuid & -> & Hp & Hne). eauto.
    + intros (payload & xuuid & Hin & Hp & Hne).
      assert (Ht : fin = true).
      { apply Hfin. exists (Ok payload). split; [exact Hin |].
        apply duplicate_spec. eauto. }
      rewrite Ht. reflexivity.
  - destruct fin; discriminate.
  - rewrite Hposted. destruct fin; reflexivity.
  - reflexivity.
  - intros st payload e Hp. unfold WATCHING_body. rewrite Hp. reflexivity.
Qed.

Local Open Scope string_scope.
(** A run of the watcher of the session that owns id 7 as ["A"]: noise, its
    own heartbeat, a peer on another id, then a peer on 7. *)
Lemma watcher_raises_witness :
  (watch (mkRaus (fun _ => 0) "A" 7 1 9 "addr" "raus" "raus:broadcast" 0%nat)
         None
         [Error (ErrRedis "eof"); Ok "junk"; Ok "A:7"; Ok "B:6"; Ok "B:7"]).2
  = Returned.
Proof.
  apply (proj1 (watcher_raises_on_duplicate_only _ _)).
  exists "B:7", "B". split; [| split].
  - simpl. auto 10.
  - reflexivity.
  - discriminate.
Defined.
Local Close Scope string_scope.

(** ** LISTING *)

Lemma LISTING_through_app r ctx : forall pre st st' rest,
  LISTING_through r ctx st pre = Some st' ->
  LISTING r ctx st (pre ++ rest) = LISTING r ctx st' rest.
Proof.
  induction pre as [| a pre IH]; intros st st' rest Hpre; simpl in *.
  - congruence.
  - destruct (elapsed st <? timeout) eqn:Et; [| discriminate].
    destruct (LISTING_body r ctx st (Some a)) as [st1 | st1 | e st1];
      try discriminate.
    apply IH. exact Hpre.
Qed.

Lemma LISTING_own_uuid r ctx st d p xid rest :
  elapsed st < timeout -> Done ctx (elapsed st) = false -> d < timeout ->
  parsePayload p = Ok (uuid r, xid) ->
  exists st',
    LISTING r ctx st ((d, Ok (Message p)) :: rest) = (st', Some ErrDuplicateUuid) /\
    usedIds st' = usedIds st /\ llog st' = llog st.
Proof.
  intros Ht Hd Hlt Hp. simpl.
  destruct (Z.ltb_spec (elapsed st) timeout); [| lia].
  unfold LISTING_body, ReceiveTimeout. rewrite Hd.
  destruct (Z.ltb_spec d timeout); [| lia].
  rewrite Hp, String.eqb_refl. eauto.
Qed.

(** C7. Whatever LISTING has taken before, when it receives a well-formed
    payload that carries the session's own uuid, [subscribe] raises
    [duplicate uuid] and returns: the id is not entered in the table, no
    command is sent to the server, and [Get] returns that error. *)
Theorem own_uuid_fails_acquire {S : Type} `{Redis S} (r : Raus) (ctx : context)
    (pre post : list arrival) (d : Z) (p : string) (xid : Z) (st : listing)
    (fuel : nat) (c : S) :
  LISTING_through r ctx listing0 pre = Some st ->
  elapsed st < timeout ->
  Done ctx (elapsed st) = false ->
  d < timeout ->
  parsePayload p = Ok (uuid r, xid) ->
  let arrivals := pre ++ (d, Ok (Message p)) :: post in
  (exists st',
     LISTING r ctx listing0 arrivals = (st', Some ErrDuplicateUuid) /\
     usedIds st' = usedIds st) /\
  (exists a,
     acquire fuel r ctx None arrivals c = Some a /\
     first a = Some ErrDuplicateUuid /\ self a = r /\ link a = c /\ alog a = []) /\
  Get fuel r ctx None arrivals c = Some (ErrorID, None, Some ErrDuplicateUuid).
Proof.
  intros Hpre Ht Hd Hlt Hp arrivals.
  destruct (LISTING_own_uuid r ctx st d p xid post Ht Hd Hlt Hp)
    as (st' & Hl & Hu & _).
  assert (Hrun : LISTING r ctx listing0 arrivals = (st', Some ErrDuplicateUuid)).
  { unfold arrivals. rewrite (LISTING_through_app _ _ _ _ _ _ Hpre). exact Hl. }
  split; [eauto |].
  assert (Ha : acquire fuel r ctx None arrivals c =
               Some {| self := r; link := c; heard := st'; alog := [];
                       first := Some ErrDuplicateUuid |}).
  { unfold acquire. rewrite Hrun. reflexivity. }
  split.
  - eexists. split; [exact Ha |]. simpl. auto.
  - unfold Get. rewrite Ha. reflexivity.
Qed.

Local Open Scope string_scope.
(** Range [10,12]: a peer is heard on 10, then ["OUR:11"] arrives at the
    session whose uuid is ["OUR"]. *)
Lemma own_uuid_fails_acquire_witness :
  Get 5 (mkRaus (fun _ => 0) "OUR" 0 10 12 "addr" "raus" "raus:broadcast" 0%nat)
      (mkContext None) None
      ([(Second, Ok (Message "N1:10"))] ++
       (Second, Ok (Message "OUR:11")) :: [(Second, Ok (Message "N2:12"))])
      (mkRecorder [] [])
  = Some (ErrorID, None, Some ErrDuplicateUuid).
Proof.
  refine (proj2 (proj2 (own_uuid_fails_acquire _ _ _ _ _ _ 11
    {| elapsed := Second; usedIds := {[10]} ∪ ∅;
       receives := [(0, timeout)]; llog := [LogPeer "N1" 10] |}
    _ _ _ _ _ _ _)));
    reflexivity.
Defined.
Local Close Scope string_scope.

Lemma LISTING_body_window r ctx st next :
  0 <= elapsed st < timeout ->
  Forall (fun it => 0 <= it.1 < timeout /\ it.2 = timeout) (receives st) ->
  forall st',
    (LISTING_body r ctx st next = Continue st' \/
     LISTING_body r ctx st next = Break st' \/
     exists e, LISTING_body r ctx st next = Return e st') ->
    0 <= elapsed st' < 2 * timeout /\
    Forall (fun it => 0 <= it.1 < timeout /\ it.2 = timeout) (receives st').
Proof.
  intros Ht Hr st' Hb.
  assert (Hgrow : Forall (fun it => 0 <= it.1 < timeout /\ it.2 = timeout)
                         (receives st ++ [(elapsed st, timeout)])).
  { apply Forall_app. split; [exact Hr |]. repeat constructor; simpl; lia. }
  assert (Hrecv : 0 <= (ReceiveTimeout timeout next).1 <= timeout).
  { unfold ReceiveTimeout. unfold timeout, Second in *.
    destruct next as [[d m] |]; simpl; [| lia].
    destruct (Z.ltb_spec d (3 * 1000000000)); simpl; lia. }
  unfold LISTING_body in Hb.
  destruct (Done ctx (elapsed st)).
  { destruct Hb as [Hb | [Hb | [e Hb]]]; try discriminate.
    inversion Hb; subst. split; [lia | exact Hr]. }
  destruct (ReceiveTimeout timeout next) as [d res]. simpl in Hrecv.
  destruct res as [[payload | |] | e0].
  - destruct (parsePayload payload) as [[xuuid xid] | e1].
    + destruct (String.eqb xuuid (uuid r));
        destruct Hb as [Hb | [Hb | [e Hb]]]; try discriminate;
        inversion Hb; subst; simpl; split; (lia || exact Hgrow).
    + destruct Hb as [Hb | [Hb | [e Hb]]]; try discriminate;
        inversion Hb; subst; simpl; split; (lia || exact Hgrow).
  - destruct Hb as [Hb | [Hb | [e Hb]]]; try discriminate;
      inversion Hb; subst; simpl; split; (lia || exact Hgrow).
  - destruct Hb as [Hb | [Hb | [e Hb]]]; try discriminate;
      inversion Hb; subst; simpl; split; (lia || exact Hgrow).
  - destruct Hb as [Hb | [Hb | [e Hb]]]; try discriminate;
      inversion Hb; subst; simpl; split; (lia || exact Hgrow).
Qed.

Lemma LISTING_window r ctx : forall arrivals st,
  0 <= elapsed st < 2 * timeout ->
  Forall (fun it => 0 <= it.1 < timeout /\ it.2 = timeout) (receives st) ->
  let st' := (LISTING r ctx st arrivals).1 in
  0 <= elapsed st' < 2 * timeout /\
  Forall (fun it => 0 <= it.1 < timeout /\ it.2 = timeout) (receives st').
Proof.
  induction arrivals as [| a rest IH]; intros st Ht Hr; simpl.
  - destruct (Z.ltb_spec (elapsed st) timeout); [| simpl; auto].
    pose proof (LISTING_body_window r ctx st None ltac:(lia) Hr) as Hb.
    destruct (LISTING_body r ctx st None) as [st1 | st1 | e st1]; simpl;
      apply Hb; eauto.
  - destruct (Z.ltb_spec (elapsed st) timeout); [| simpl; auto].
    pose proof (LISTING_body_window r ctx st (Some a) ltac:(lia) Hr) as Hb.
    destruct (LISTING_body r ctx st (Some a)) as [st1 | st1 | e st1]; simpl.
    + destruct (Hb st1) as [H1 H2]; [eauto |]. apply IH; assumption.
    + apply Hb; eauto.
    + apply Hb; eauto.
Qed.

(** C6, as the code has it. Every receive of LISTING is given the same
    timeout of 3 seconds, whatever part of the window is left, and is
    issued while less than 3 seconds have gone by since the start; so the
    loop is over less than 6 seconds after it started. *)
Theorem discovery_receives_fixed_timeout (r : Raus) (ctx : context)
    (arrivals : list arrival) :
  let st := (LISTING r ctx listing0 arrivals).1 in
  timeout = 3 * Second /\
  Forall (fun it => 0 <= it.1 < timeout /\ it.2 = timeout) (receives st) /\
  0 <= elapsed st < 2 * timeout.
Proof.
  intros st. split; [reflexivity |].
  destruct (LISTING_window r ctx arrivals listing0) as [H1 H2].
  - simpl. unfold timeout, Second. lia.
  - constructor.
  - split; assumption.
Qed.

Local Open Scope string_scope.
(** C6, as the claim has it, fails: with one message after 2 seconds the
    second receive is again given 3 seconds, not the 1 second that is
    left, and the loop ends 5 seconds after its start. *)
Lemma discovery_deadline_counterexample :
  ~ (forall (r : Raus) (ctx : context) (arrivals : list arrival),
       let st := (LISTING r ctx listing0 arrivals).1 in
       Forall (fun it => it.2 = timeout - it.1) (receives st) /\
       elapsed st <= timeout).
Proof.
  intros Hall.
  specialize (Hall (mkRaus (fun _ => 0) "A" 0 1 3 "addr" "raus" "raus:broadcast" 0%nat)
                   (mkContext None)
                   [(2 * Second, Ok (Message "N1:1"))]).
  destruct Hall as [_ Hwin]. vm_compute in Hwin. apply Hwin. reflexivity.
Qed.
Local Close Scope string_scope.

(** ** Get *)

Section GetFacts.
Context {S : Type} `{Redis S}.





Lemma subscribe_first_send fuel r ctx sub arrivals c sub2 got a :
  acquire fuel r ctx sub arrivals c = Some a ->
  exists rest fin,
    subscribe fuel r ctx sub arrivals c sub2 got = Some (first a :: rest, fin).
Proof.
  intros Ha. unfold subscribe. rewrite Ha. destruct (first a); eauto.
Qed.


End GetFacts.

Local Open Scope string_scope.
Local Close Scope string_scope.

(** ** publish *)

Lemma publish_loop_returned {S : Type} `{Redis S} r payload : forall ticks st,
  (publish_loop r payload ticks st).2 = existsb (fun done => done) ticks.
Proof.
  induction ticks as [| done ticks IH]; intros [c lg]; [reflexivity |].
  simpl. destruct done.
  - destruct (Del (lockKey r) c) as [[e |] c1]; reflexivity.
  - destruct (Publish (pubSubChannel r) payload c) as [[e |] c1]; [apply IH |].
    destruct (Set_ _ _ _ c1) as [[e |] c2]; apply IH.
Qed.

(** C4, as the code has it. On a tick with the context live the publisher
    publishes ["<uuid>:<id>"] on the broadcast channel; when that went
    through it then writes the lock key unconditionally with its uuid and
    60 seconds to live, and when it failed it logs the error and sends
    nothing more on that tick. A failed write is logged. In every case the
    loop goes on to the next tick. On a tick with the context cancelled it
    sends one DEL of its lock key, logs the error if that failed, and
    returns; it returns on no other tick. *)
Theorem publisher_tick (r : Raus) (s : recorder) (lg : list logline) :
  let payload := newPayload (uuid r) (id r) in
  (exists s' lg',
     publish_tick r payload false (s, lg) = Continue (s', lg') /\
     calls s' = calls s ++
       CallPublish (pubSubChannel r) payload ::
       (if failed (next_answer s) then []
        else [CallSet (lockKey r) (uuid r) (60 * Second)]) /\
     (forall m, next_answer s = Failed m -> lg' = lg ++ [LogError (ErrRedis m)]) /\
     (forall m, failed (next_answer s) = false ->
        nth 1 (answers s) Won = Failed m -> lg' = lg ++ [LogError (ErrRedis m)])) /\
  (exists s' lg',
     publish_tick r payload true (s, lg) = Break (s', lg') /\
     calls s' = calls s ++ [CallDel (lockKey r)] /\
     lg' = lg ++ [LogShuttingDown;
                  match next_answer s with
                  | Failed m => LogError (ErrRedis m)
                  | _ => LogLockRemoved (lockKey r)
                  end]) /\
  (forall ticks, (publish r ticks s).2 = existsb (fun done => done) ticks).
Proof.
  intros payload. split; [| split].
  - unfold publish_tick, next_answer. simpl. unfold record.
    destruct s as [[| a1 [| a2 rest]] cs]; simpl.
    + eexists _, _. split; [reflexivity |]. simpl.
      split; [rewrite <- app_assoc; reflexivity |]. split; discriminate.
    + destruct a1; simpl; (eexists _, _; split; [reflexivity |]); simpl;
        (split; [rewrite <- ?app_assoc; reflexivity |]);
        split; try discriminate; congruence.
    + destruct a1; simpl; try destruct a2; simpl;
        (eexists _, _; split; [reflexivity |]); simpl;
        (split; [rewrite <- ?app_assoc; reflexivity |]);
        split; try discriminate; congruence.
  - unfold publish_tick, next_answer. simpl. unfold record.
    destruct s as [[| a1 rest] cs]; simpl.
    + eexists _, _. split; [reflexivity |]. auto.
    + destruct a1; simpl; (eexists _, _; split; [reflexivity |]); auto.
  - intros ticks. apply publish_loop_returned.
Qed.

Local Open Scope string_scope.
(** A tick on which PUBLISH fails: one command, one log line. *)
Lemma publisher_tick_witness :
  exists s' lg',
    publish_tick (mkRaus (fun _ => 0) "A" 2 1 3 "addr" "raus" "raus:broadcast" 0%nat)
                 "A:2" false (mkRecorder [Failed "connection refused"] [], []) =
      Continue (s', lg') /\
    calls s' = [CallPublish "raus:broadcast" "A:2"] /\
    lg' = [LogError (ErrRedis "connection refused")].
Proof.
  destruct (publisher_tick
              (mkRaus (fun _ => 0) "A" 2 1 3 "addr" "raus" "raus:broadcast" 0%nat)
              (mkRecorder [Failed "connection refused"] []) [])
    as [(s' & lg' & Hrun & Hcalls & Hlog & _) _].
  exists s', lg'. split; [exact Hrun |]. split; [exact Hcalls |].
  apply (Hlog "connection refused"). reflexivity.
Defined.

(** C4, as the claim has it, fails: when PUBLISH fails the tick sends no
    SET, so the failure of one step does prevent the other. *)
Lemma publisher_tick_counterexample :
  ~ (forall (r : Raus) (s : recorder),
       exists s' lg',
         publish_tick r (newPayload (uuid r) (id r)) false (s, []) =
           Continue (s', lg') /\
         In (CallPublish (pubSubChannel r) (newPayload (uuid r) (id r))) (calls s') /\
         In (CallSet (lockKey r) (uuid r) (60 * Second)) (calls s')).
Proof.
  intros Hall.
  destruct (Hall (mkRaus (fun _ => 0) "A" 2 1 3 "addr" "raus" "raus:broadcast" 0%nat)
                 (mkRecorder [Failed "connection refused"] []))
    as (s' & lg' & Hrun & _ & Hset).
  vm_compute in Hrun. injection Hrun as <- _.
  simpl in Hset. destruct Hset as [Hset | []]. discriminate.
Qed.
Local Close Scope string_scope.
(** ** LOCKING *)

Lemma scan_S fuel mx (used : gset Z) i cand :
  scan (Datatypes.S fuel) mx used i cand =
    if i <=? mx then
      if decide (i ∈ used) then scan fuel mx used (GoInt.incr i) cand
      else if (maxCandidate <=? length (cand ++ [i]))%nat then Some (cand ++ [i])
           else scan fuel mx used (GoInt.incr i) (cand ++ [i])
    else Some cand.
Proof. reflexivity. Qed.

Lemma scan_spec mx (used : gset Z) :
  mx < GoInt.MaxInt ->
  forall fuel i cand,
    GoInt.MinInt <= i <= mx + 1 ->
    (length cand < maxCandidate)%nat ->
    (Z.to_nat (mx + 1 - i) < fuel)%nat ->
    scan fuel mx used i cand =
      Some (take maxCandidate
              (cand ++ filter (fun j => j ∉ used) (seqZ i (mx + 1 - i)))).
Proof.
  intros Hmx. induction fuel as [| fuel IH]; intros i cand Hi Hc Hf; [lia |].
  rewrite scan_S. destruct (Z.leb_spec i mx) as [Hle | Hgt].
  - rewrite (seqZ_cons i) by lia.
    rewrite incr_below by lia.
    replace (Z.succ i) with (i + 1) by lia.
    replace (Z.pred (mx + 1 - i)) with (mx + 1 - (i + 1)) by lia.
    destruct (decide (i ∈ used)) as [Hin | Hout].
    + rewrite filter_cons_False by (intros Hn; exact (Hn Hin)).
      apply IH; lia.
    + rewrite filter_cons_True by exact Hout.
      assert (Hlen : length (cand ++ [i]) = Datatypes.S (length cand))
        by (rewrite length_app; simpl; lia).
      replace (cand ++ i :: filter (fun j => j ∉ used) (seqZ (i + 1) (mx + 1 - (i + 1))))
        with ((cand ++ [i]) ++ filter (fun j => j ∉ used) (seqZ (i + 1) (mx + 1 - (i + 1))))
        by (rewrite <- app_assoc; reflexivity).
      destruct (Nat.leb_spec maxCandidate (length (cand ++ [i]))) as [Hfull | Hroom].
      * f_equal. symmetry. apply take_app_length'. lia.
      * apply IH; lia.
  - replace i with (mx + 1) by lia.
    rewrite seqZ_nil by lia. rewrite filter_nil, app_nil_r.
    f_equal. symmetry. apply take_ge. lia.
Qed.

Lemma candidates_spec fuel r used :
  0 <= min r -> min r < max r -> max r < GoInt.MaxInt ->
  (Z.to_nat (max r - min r + 1) < fuel)%nat ->
  candidates fuel r used = Some (take maxCandidate (free_ids r used)).
Proof.
  intros Hmin Hlt Hmax Hfuel. unfold candidates, free_ids.
  rewrite (scan_spec (max r) used Hmax fuel (min r) []).
  - replace (max r + 1 - min r) with (max r - min r + 1) by lia. reflexivity.
  - unfold GoInt.MinInt. lia.
  - unfold maxCandidate. simpl. lia.
  - replace (max r + 1 - min r) with (max r - min r + 1) by lia. exact Hfuel.
Qed.

Lemma free_ids_spec r used c :
  c ∈ free_ids r used <-> min r <= c <= max r /\ c ∉ used.
Proof.
  unfold free_ids. rewrite list_elem_of_filter, elem_of_seqZ. split; intros; split; lia || tauto.
Qed.

Lemma free_ids_length r used :
  (length (free_ids r used) <= Z.to_nat (max r - min r + 1))%nat.
Proof.
  unfold free_ids. etransitivity; [apply length_filter |].
  rewrite length_seqZ. lia.
Qed.

Lemma filter_used_le (c : Z) (used : gset Z) (l : list Z) :
  (length (filter (fun i => i ∉ {[c]} ∪ used) l) <=
   length (filter (fun i => i ∉ used) l))%nat.
Proof.
  induction l as [| a l IH]; [reflexivity |].
  destruct (decide (a ∈ used)) as [Hin | Hout].
  - rewrite (filter_cons_False (fun i => i ∉ {[c]} ∪ used))
      by (intros Hn; apply Hn, elem_of_union_r, Hin).
    rewrite (filter_cons_False (fun i => i ∉ used)) by (intros Hn; exact (Hn Hin)).
    exact IH.
  - rewrite (filter_cons_True (fun i => i ∉ used)) by exact Hout.
    rewrite filter_cons. case_decide; simpl; lia.
Qed.

Lemma filter_used_lt (c : Z) (used : gset Z) (l : list Z) :
  c ∈ filter (fun i => i ∉ used) l ->
  (length (filter (fun i => i ∉ {[c]} ∪ used) l) <
   length (filter (fun i => i ∉ used) l))%nat.
Proof.
  induction l as [| a l IH]; [intros Hc; apply elem_of_nil in Hc; contradiction |].
  pose proof (filter_used_le c used l) as Hle.
  destruct (decide (a ∈ used)) as [Hin | Hout].
  - rewrite (filter_cons_False (fun i => i ∉ {[c]} ∪ used))
      by (intros Hn; apply Hn, elem_of_union_r, Hin).
    rewrite (filter_cons_False (fun i => i ∉ used)) by (intros Hn; exact (Hn Hin)).
    exact IH.
  - rewrite (filter_cons_True (fun i => i ∉ used)) by exact Hout.
    intros Hc. destruct (decide (a = c)) as [-> | Hne].
    + rewrite filter_cons_False; [simpl; lia |].
      intros Hn. apply Hn. apply elem_of_union_l, elem_of_singleton. reflexivity.
    + apply elem_of_cons in Hc as [-> | Hc]; [contradiction |].
      specialize (IH Hc). rewrite filter_cons. case_decide; simpl; lia.
Qed.

Lemma free_ids_shrink r used c :
  c ∈ free_ids r used ->
  (length (free_ids r ({[c]} ∪ used)) < length (free_ids r used))%nat.
Proof. apply filter_used_lt. Qed.

Lemma Intn_pick r k (cs : list Z) :
  cs <> [] ->
  nth (Z.to_nat (Intn r k (Z.of_nat (length cs)))) cs 0 ∈ cs.
Proof.
  intros Hne. apply list_elem_of_In, nth_In.
  assert (0 < Z.of_nat (length cs)) by (destruct cs; [contradiction | simpl; lia]).
  pose proof (Z.mod_pos_bound (rand r k) (Z.of_nat (length cs)) ltac:(lia)).
  unfold Intn. lia.
Qed.

Section LockingFacts.
Variable r : Raus.
Variable fuel : nat.
Hypothesis Hmin : 0 <= min r.
Hypothesis Hlt : min r < max r.
Hypothesis Hmax : max r < GoInt.MaxInt.
Hypothesis Hfuel : (Z.to_nat (max r - min r + 1) < fuel)%nat.

Lemma LOCKING_body_empty {S : Type} `{Redis S} (st : locking S) :
  free_ids r (used st) = [] ->
  LOCKING_body fuel r st = Some (Return ErrNoMoreId (r, st)).
Proof.
  intros He. unfold LOCKING_body.
  rewrite candidates_spec by assumption. rewrite He. reflexivity.
Qed.

Lemma LOCKING_body_nonempty {S : Type} `{Redis S} (st : locking S) :
  free_ids r (used st) <> [] ->
  let cs := take maxCandidate (free_ids r (used st)) in
  let c := nth (Z.to_nat (Intn r (draws st) (Z.of_nat (length cs)))) cs 0 in
  let lg := klog st ++ [LogCandidates cs; LogTrying (candidateLockKey r c)] in
  let out := SetNX (candidateLockKey r c) (uuid r) (60 * Second) (conn st) in
  c ∈ cs /\
  LOCKING_body fuel r st = Some
    match out.1 with
    | Ok true =>
        Break (set_id r c,
               {| conn := out.2; used := used st; draws := Datatypes.S (draws st);
                  klog := lg ++ [LogGotLock c] |})
    | Ok false =>
        Continue (r,
               {| conn := out.2; used := {[c]} ∪ used st;
                  draws := Datatypes.S (draws st);
                  klog := lg ++ [LogNoLock c] |})
    | Error e =>
        Return e
              (r,
               {| conn := out.2; used := used st; draws := Datatypes.S (draws st);
                  klog := lg |})
    end.
Proof.
  intros Hne cs c lg out.
  assert (Hcs : cs <> []).
  { unfold cs, maxCandidate. destruct (free_ids r (used st)); [contradiction | discriminate]. }
  split; [apply Intn_pick; exact Hcs |].
  unfold LOCKING_body. rewrite candidates_spec by assumption.
  unfold out, lg, c. clear out lg c. fold cs.
  destruct cs as [| c0 cs0]; [contradiction |].
  destruct (SetNX _ _ _ _) as [[[|] | e] c']; reflexivity.
Qed.

Lemma SetNX_recorder key val ttl (s : recorder) :
  SetNX key val ttl s =
    (match next_answer s with
     | Won => Ok true
     | Lost => Ok false
     | Failed m => Error (ErrRedis m)
     end, (record (CallSetNX key val ttl) s).2).
Proof.
  unfold next_answer. simpl. unfold record.
  destruct (answers s) as [| [] rest]; reflexivity.
Qed.

(** One round against the scripted server, when an id is free. *)
Lemma LOCKING_body_recorder (st : locking recorder) :
  free_ids r (used st) <> [] ->
  let cs := take maxCandidate (free_ids r (used st)) in
  let c := nth (Z.to_nat (Intn r (draws st) (Z.of_nat (length cs)))) cs 0 in
  let conn' := (record (claim_call r c) (conn st)).2 in
  let lg := klog st ++ [LogCandidates cs; LogTrying (candidateLockKey r c)] in
  c ∈ cs /\
  LOCKING_body fuel r st = Some
    match next_answer (conn st) with
    | Won =>
        Break (set_id r c,
               {| conn := conn'; used := used st; draws := Datatypes.S (draws st);
                  klog := lg ++ [LogGotLock c] |})
    | Lost =>
        Continue (r,
               {| conn := conn'; used := {[c]} ∪ used st;
                  draws := Datatypes.S (draws st);
                  klog := lg ++ [LogNoLock c] |})
    | Failed m =>
        Return (ErrRedis m)
              (r,
               {| conn := conn'; used := used st; draws := Datatypes.S (draws st);
                  klog := lg |})
    end.
Proof.
  intros Hne cs c conn' lg.
  destruct (LOCKING_body_nonempty st Hne) as [Hc Hb].
  split; [exact Hc |].
  rewrite Hb. rewrite SetNX_recorder.
  destruct (next_answer (conn st)); reflexivity.
Qed.

Lemma LOCKING_recorder_ends : forall n rounds (st : locking recorder),
  (length (free_ids r (used st)) <= n)%nat -> (n < rounds)%nat ->
  exists r' st' e tried,
    LOCKING rounds fuel r st = Some (r', st', e) /\
    calls (conn st') = calls (conn st) ++ map (claim_call r) tried /\
    draws st' = (draws st + length tried)%nat /\
    (length tried <= n)%nat /\
    Forall (fun c => c ∈ free_ids r (used st)) tried /\
    match e with
    | None => exists c, last tried = Some c /\ r' = set_id r c
    | Some err =>
        r' = r /\
        (err = ErrNoMoreId /\ free_ids r (used st') = [] \/
         exists m, err = ErrRedis m /\ tried <> [])
    end.
Proof.
  induction n as [| n IH]; intros rounds st Hn Hr;
    (destruct rounds as [| rounds]; [lia |]); simpl LOCKING.
  - assert (He : free_ids r (used st) = []) by (destruct (free_ids r (used st)); [reflexivity | simpl in Hn; lia]).
    rewrite LOCKING_body_empty by exact He.
    exists r, st, (Some ErrNoMoreId), []. simpl.
    rewrite app_nil_r. repeat split; auto.
  - destruct (free_ids r (used st)) as [| f0 fs] eqn:Ef.
    { rewrite LOCKING_body_empty by exact Ef.
      exists r, st, (Some ErrNoMoreId), []. simpl.
      rewrite app_nil_r. repeat split; auto; lia. }
    assert (Hne : free_ids r (used st) <> []) by (rewrite Ef; discriminate).
    destruct (LOCKING_body_recorder st Hne) as [Hc Hb].
    rewrite <- Ef in *. clear Ef.
    set (cs := take maxCandidate (free_ids r (used st))) in *.
    set (c := nth (Z.to_nat (Intn r (draws st) (Z.of_nat (length cs)))) cs 0) in *.
    assert (Hfree : c ∈ free_ids r (used st))
      by (apply (subseteq_take maxCandidate); exact Hc).
    assert (Hcalls : calls (record (claim_call r c) (conn st)).2 =
                     calls (conn st) ++ [claim_call r c])
      by (unfold record; destruct (answers (conn st)); reflexivity).
    rewrite Hb. destruct (next_answer (conn st)) as [| | m].
    + eexists _, _, None, [c]. split; [reflexivity |]. simpl.
      rewrite Hcalls. repeat split; auto; try lia. eauto.
    + pose proof (free_ids_shrink r (used st) c Hfree) as Hsh.
      edestruct (IH rounds
        {| conn := (record (claim_call r c) (conn st)).2;
           used := {[c]} ∪ used st; draws := Datatypes.S (draws st);
           klog := (klog st ++ [LogCandidates cs; LogTrying (candidateLockKey r c)])
                     ++ [LogNoLock c] |})
        as (r' & st' & e & tried & Hrun & Hcl & Hdr & Hlen & Hall & Hout);
        [simpl; lia | lia |].
      simpl in Hcl, Hdr, Hall.
      exists r', st', e, (c :: tried). split; [exact Hrun |].
      split; [rewrite Hcl, Hcalls, <- app_assoc; reflexivity |].
      split; [simpl; lia |]. split; [simpl; lia |].
      split.
      { constructor; [exact Hfree |].
        eapply Forall_impl; [exact Hall |]. intros x Hx.
        apply free_ids_spec in Hx as [Hx1 Hx2]. apply free_ids_spec.
        split; [exact Hx1 |]. intros Hu. apply Hx2. apply elem_of_union_r. exact Hu. }
      destruct e as [err |].
      * destruct Hout as [-> [Hex | (m & -> & Ht)]]; split; auto.
        right. exists m. split; [reflexivity | discriminate].
      * destruct Hout as (c' & Hlast & ->). exists c'. split; [| reflexivity].
        destruct tried; [discriminate | exact Hlast].
    + eexists _, _, (Some (ErrRedis m)), [c]. split; [reflexivity |]. simpl.
      rewrite Hcalls. repeat split; auto; try lia.
      right. exists m. split; [reflexivity | discriminate].
Qed.

End LockingFacts.

(** C2, as the code has it. For a range that [New] accepts and whose [max]
    is below the largest [int]: each round scans [min..max] upwards and
    keeps the first 10 ids that are not in the table; with none it raises
    [no more available id]; otherwise it takes the candidate at the index
    the generator draws and sends one SETNX of that id's lock key with the
    session's uuid and 60 seconds to live. If the server wins the key for
    it the id is claimed; if the server reports an error the loop ends
    with that error; if the key is held the id enters the table and the
    loop goes round again. So the loop ends after at most [max - min + 1]
    SETNX, each for another id of the range, with the id tried last
    claimed, with [no more available id], or with the server's error. *)
Theorem claim_loop (r : Raus) (st : locking recorder) (rounds fuel : nat) :
  0 <= min r -> min r < max r -> max r < GoInt.MaxInt ->
  (Z.to_nat (max r - min r + 1) < fuel)%nat ->
  (Z.to_nat (max r - min r + 1) < rounds)%nat ->
  candidates fuel r (used st) = Some (take maxCandidate (free_ids r (used st))) /\
  (free_ids r (used st) = [] ->
   LOCKING_body fuel r st = Some (Return ErrNoMoreId (r, st))) /\
  (free_ids r (used st) <> [] ->
   let cs := take maxCandidate (free_ids r (used st)) in
   let c := nth (Z.to_nat (Intn r (draws st) (Z.of_nat (length cs)))) cs 0 in
   let conn' := (record (claim_call r c) (conn st)).2 in
   let lg := klog st ++ [LogCandidates cs; LogTrying (candidateLockKey r c)] in
   c ∈ cs /\
   LOCKING_body fuel r st = Some
     match next_answer (conn st) with
     | Won =>
         Break (set_id r c,
                {| conn := conn'; used := used st; draws := Datatypes.S (draws st);
                   klog := lg ++ [LogGotLock c] |})
     | Lost =>
         Continue (r,
                {| conn := conn'; used := {[c]} ∪ used st;
                   draws := Datatypes.S (draws st);
                   klog := lg ++ [LogNoLock c] |})
     | Failed m =>
         Return (ErrRedis m)
               (r,
                {| conn := conn'; used := used st; draws := Datatypes.S (draws st);
                   klog := lg |})
     end) /\
  exists r' st' e tried,
    LOCKING rounds fuel r st = Some (r', st', e) /\
    calls (conn st') = calls (conn st) ++ map (claim_call r) tried /\
    draws st' = (draws st + length tried)%nat /\
    Z.of_nat (length tried) <= max r - min r + 1 /\
    Forall (fun c => min r <= c <= max r /\ c ∉ used st) tried /\
    match e with
    | None => exists c, last tried = Some c /\ r' = set_id r c
    | Some err =>
        r' = r /\
        (err = ErrNoMoreId /\ free_ids r (used st') = [] \/
         exists m, err = ErrRedis m /\ tried <> [])
    end.
Proof.
  intros Hmin Hlt Hmax Hfuel Hrounds.
  split; [apply candidates_spec; assumption |].
  split; [apply LOCKING_body_empty; assumption |].
  split; [apply LOCKING_body_recorder; assumption |].
  destruct (LOCKING_recorder_ends r fuel Hmin Hlt Hmax Hfuel
              (Z.to_nat (max r - min r + 1)) rounds st
              (free_ids_length r (used st)) Hrounds)
    as (r' & st' & e & tried & Hrun & Hcalls & Hdraws & Hlen & Hall & Hout).
  exists r', st', e, tried.
  split; [exact Hrun |]. split; [exact Hcalls |]. split; [exact Hdraws |].
  split; [lia |]. split; [| exact Hout].
  eapply Forall_impl; [exact Hall |]. intros c Hc.
  apply free_ids_spec in Hc. exact Hc.
Qed.

Local Open Scope string_scope.
(** Range [1,3] with 1 and 2 heard during LISTING: the scan leaves 3. *)
Lemma claim_loop_witness :
  candidates 5 (mkRaus (fun _ => 0) "A" 0 1 3 "addr" "raus" "raus:broadcast" 0%nat)
             {[1; 2]}
  = Some [3].
Proof.
  refine (proj1 (claim_loop
    (mkRaus (fun _ => 0) "A" 0 1 3 "addr" "raus" "raus:broadcast" 0%nat)
    {| conn := mkRecorder [Lost] []; used := {[1; 2]}; draws := 0; klog := [] |}
    5 5 _ _ _ _ _)).
  - simpl. lia.
  - simpl. lia.
  - simpl. unfold GoInt.MaxInt. lia.
  - simpl. lia.
  - simpl. lia.
Defined.

(** C2, as the claim has it, fails: when the server reports an error on
    the SETNX the loop ends with neither a claimed id nor [no more
    available id]. *)
Lemma claim_loop_counterexample :
  ~ (forall (r : Raus) (st : locking recorder) (rounds fuel : nat),
       0 <= min r -> min r < max r -> max r < GoInt.MaxInt ->
       (Z.to_nat (max r - min r + 1) < fuel)%nat ->
       (Z.to_nat (max r - min r + 1) < rounds)%nat ->
       exists r' st' e,
         LOCKING rounds fuel r st = Some (r', st', e) /\
         (e = None \/ e = Some ErrNoMoreId)).
Proof.
  intros Hall.
  destruct (Hall (mkRaus (fun _ => 0) "A" 0 1 3 "addr" "raus" "raus:broadcast" 0%nat)
                 {| conn := mkRecorder [Failed "connection reset"] [];
                    used := ∅; draws := 0; klog := [] |}
                 5%nat 5%nat)
    as (r' & st' & e & Hrun & He);
    try (simpl; unfold GoInt.MaxInt; lia).
  vm_compute in Hrun. injection Hrun as _ _ <-.
  destruct He as [He | He]; discriminate.
Qed.

(** C3 at the top of the [int] range. [New] accepts the range
    [MaxInt-1, MaxInt]; with nothing heard and a server that grants the
    first SETNX, the scan runs past [MaxInt] into the negative numbers,
    the draw 2 picks [MinInt], and [Get] returns it: an id below [min]. *)
Theorem Get_outside_range_at_MaxInt :
  exists r,
    New (mkFresh (fun _ => 2) "A" 1%nat) "localhost:6379"
        (GoInt.MaxInt - 1) GoInt.MaxInt = Ok r /\
    candidates 12 r ∅ =
      Some ([GoInt.MaxInt - 1; GoInt.MaxInt] ++ seqZ GoInt.MinInt 8)%list /\
    Get 12 r (mkContext None) None [] (mkRecorder [] []) =
      Some (GoInt.MinInt, Some 1%nat, None) /\
    ~ (min r <= GoInt.MinInt <= max r).
Proof.
  eexists. split; [reflexivity |].
  split; [vm_compute; reflexivity |].
  split; [vm_compute; reflexivity |].
  simpl. unfold GoInt.MinInt, GoInt.MaxInt. lia.
Qed.
Local Close Scope string_scope.

(** Below the top of the [int] range the id [Get] returns is in the
    range and was not heard during LISTING. *)
Lemma Get_in_range (r : Raus) (fuel : nat) (ctx : context) (sub : option error)
    (arrivals : list arrival) (c : recorder) (i : Z) (ch : option chan) :
  0 <= min r -> min r < max r -> max r < GoInt.MaxInt ->
  (Z.to_nat (max r - min r + 1) < fuel)%nat ->
  Get fuel r ctx sub arrivals c = Some (i, ch, None) ->
  min r <= i <= max r.
Proof.
  intros Hmin Hlt Hmax Hfuel. unfold Get, acquire.
  destruct sub as [e |]; [discriminate |].
  destruct (LISTING r ctx listing0 arrivals) as [st [e |]]; [discriminate |].
  destruct (Done ctx (elapsed st)); [discriminate |].
  destruct (LOCKING_recorder_ends r fuel Hmin Hlt Hmax Hfuel
              (Z.to_nat (max r - min r + 1)) fuel
              {| conn := c; used := usedIds st; draws := 0; klog := [] |}
              (free_ids_length r (usedIds st)) Hfuel)
    as (r' & st' & e & tried & Hrun & _ & _ & _ & Hall & Hout).
  rewrite Hrun. simpl. destruct e as [err |]; [discriminate |].
  intros [= <- _]. destruct Hout as (c0 & Hlast & ->). simpl.
  assert (Hin : c0 ∈ tried).
  { apply last_Some in Hlast as [l' ->]. apply elem_of_app. right. apply list_elem_of_singleton. reflexivity. }
  rewrite Forall_forall in Hall. specialize (Hall c0 Hin).
  apply free_ids_spec in Hall. simpl in Hall. tauto.
Qed.
(** ** Sessions side by side *)

Example peer_is_New (u : string) :
  New (mkFresh (fun _ => 0) u O) "localhost:6379"%string 0 1 = Ok (peer u).
Proof. reflexivity. Qed.

Lemma in_time_Elapse σ d u m :
  in_time σ (Elapse d) = true -> members σ !! u = Some m ->
  lease_kept (redis σ) d m = true.
Proof.
  unfold in_time. rewrite forallb_forall. intros Hall Hm.
  apply (Hall (u, m)). apply list_elem_of_In, elem_of_map_to_list. exact Hm.
Qed.

Lemma table_write key val ttl s k :
  table (write key val ttl s) !! k =
    if decide (key = k) then Some (val, now s + ttl) else table s !! k.
Proof.
  unfold write. simpl. rewrite lookup_insert. reflexivity.
Qed.

Lemma holder_Some s key v expiry :
  table s !! key = Some (v, expiry) -> now s < expiry -> holder s key = Some v.
Proof.
  intros Ht Hn. unfold holder. rewrite Ht.
  destruct (Z.ltb_spec (now s) expiry); [reflexivity | lia].
Qed.

(** What one round of LOCKING does to the server that keeps its word. *)
Lemma LOCKING_body_server fuel r (st : locking server) fl :
  LOCKING_body fuel r st = Some fl ->
  fl = Return ErrNoMoreId (r, st) \/
  exists c st',
    (is_Some (holder (conn st) (candidateLockKey r c)) /\
     fl = Continue (r, st') /\ conn st' = conn st) \/
    (holder (conn st) (candidateLockKey r c) = None /\
     fl = Break (set_id r c, st') /\
     conn st' = write (candidateLockKey r c) (uuid r) (60 * Second) (conn st)).
Proof.
  unfold LOCKING_body.
  destruct (candidates fuel r (used st)) as [[| c0 cs] |]; try discriminate.
  - intros [= <-]. left. reflexivity.
  - right.
    set (c := nth _ (c0 :: cs) 0) in *.
    cbn [SetNX server_redis] in H.
    destruct (holder (conn st) (candidateLockKey r c)) as [v |] eqn:Eh;
      injection H as <-; eexists c, _; [left | right]; eauto.
Qed.

Lemma leases_held_update σ u r' ph' s' :
  leases_held σ ->
  (exists m, members σ !! u = Some m /\ uuid (who m) = uuid r') ->
  (forall u' m' expiry,
     u' <> u -> members σ !! u' = Some m' -> stage m' = OWNING ->
     table (redis σ) !! lockKey (who m') = Some (u', expiry) ->
     now (redis σ) < expiry ->
     exists expiry',
       table s' !! lockKey (who m') = Some (u', expiry') /\ now s' < expiry') ->
  (ph' = OWNING ->
   exists expiry, table s' !! lockKey r' = Some (uuid r', expiry) /\ now s' < expiry) ->
  leases_held {| redis := s';
                 members := <[u := {| who := r'; stage := ph' |}]> (members σ) |}.
Proof.
  intros Hinv (m0 & Hm0 & Hu0) Hothers Hself u' m'. simpl.
  destruct (Hinv u m0 Hm0) as [Hkey _].
  destruct (decide (u = u')) as [<- | Hne].
  - rewrite lookup_insert_eq. intros [= <-]. simpl.
    split; [congruence |]. intros Hown.
    destruct (Hself Hown) as (expiry & Ht & Hn).
    exists expiry. split; [| exact Hn]. rewrite Ht. congruence.
  - rewrite lookup_insert_ne by exact Hne. intros Hm'.
    destruct (Hinv u' m' Hm') as [Hk' Hown']. split; [exact Hk' |].
    intros Hown. destruct (Hown' Hown) as (expiry & Ht & Hn).
    apply (Hothers u' m' expiry); auto.
Qed.

Lemma step_leases_held σ e σ' :
  leases_held σ -> in_time σ e = true -> step e σ = Some σ' -> leases_held σ'.
Proof.
  intros Hinv Htime. destruct e as [d | r us | u fuel | u done]; simpl step.
  - (* time passes *)
    destruct (Z.ltb_spec 0 d); [| discriminate]. intros [= <-] u m Hm. simpl in *.
    destruct (Hinv u m Hm) as [Hk Hown]. split; [exact Hk |].
    intros Ho. destruct (Hown Ho) as (expiry & Ht & Hn).
    exists expiry. split; [exact Ht |].
    pose proof (in_time_Elapse σ d u m Htime Hm) as Hkept.
    unfold lease_kept in Hkept. rewrite Ho, Ht in Hkept.
    apply Z.ltb_lt in Hkept. exact Hkept.
  - (* a session enters *)
    destruct (members σ !! uuid r) eqn:Em; [discriminate |].
    intros [= <-] u m. simpl.
    destruct (decide (uuid r = u)) as [<- | Hne].
    + rewrite lookup_insert_eq. intros [= <-]. simpl. split; [reflexivity | discriminate].
    + rewrite lookup_insert_ne by exact Hne. apply Hinv.
  - (* a round of LOCKING *)
    destruct (members σ !! u) as [[r ph] |] eqn:Em; [| discriminate].
    destruct ph as [us k | | |]; try discriminate.
    destruct (Hinv u _ Em) as [Hu _]. simpl in Hu.
    destruct (LOCKING_body fuel r _) as [fl |] eqn:Eb; [| discriminate].
    apply LOCKING_body_server in Eb. simpl conn in Eb.
    destruct Eb as [-> | (c & st' & [(Hheld & -> & Hc) | (Hfree & -> & Hc)])].
    + intros [= <-].
      apply leases_held_update;
        [exact Hinv | eexists; split; [exact Em | reflexivity] | eauto | discriminate].
    + intros [= <-]. rewrite Hc.
      apply leases_held_update;
        [exact Hinv | eexists; split; [exact Em | reflexivity] | eauto | discriminate].
    + intros [= <-]. rewrite Hc.
      apply leases_held_update;
        [exact Hinv | eexists; split; [exact Em | reflexivity] | |].
      * intros u' m' expiry Hne Hm' Ho Ht Hn.
        exists expiry. split; [| exact Hn].
        rewrite table_write.
        destruct (decide (candidateLockKey r c = lockKey (who m'))) as [Heq | _];
          [| exact Ht].
        rewrite Heq in Hfree. rewrite (holder_Some _ _ _ _ Ht Hn) in Hfree.
        discriminate.
      * intros _. exists (now (redis σ) + 60 * Second). split.
        -- rewrite table_write.
           change (lockKey (set_id r c)) with (candidateLockKey r c).
           rewrite decide_True by reflexivity. reflexivity.
        -- cbn [now write]. unfold Second. lia.
  - (* a tick of the publisher *)
    destruct (members σ !! u) as [[r ph] |] eqn:Em; [| discriminate].
    destruct ph as [us k | | |]; try discriminate.
    destruct (Hinv u _ Em) as [Hu Hown]. simpl in Hu, Hown.
    destruct (Hown eq_refl) as (exp0 & Ht0 & Hn0).
    assert (Hapart : forall u' m' expiry,
              u' <> u -> members σ !! u' = Some m' ->
              table (redis σ) !! lockKey (who m') = Some (u', expiry) ->
              lockKey r <> lockKey (who m')).
    { intros u' m' expiry Hne Hm' Ht Heq. rewrite <- Heq, Ht0 in Ht. congruence. }
    destruct done; cbn [publish_tick Del Publish Set_ server_redis].
    + intros [= <-].
      apply leases_held_update;
        [exact Hinv | eexists; split; [exact Em | reflexivity] | | discriminate].
      intros u' m' expiry Hne Hm' Ho Ht Hn.
      exists expiry. split; [| exact Hn].
      cbn [table]. rewrite lookup_delete_ne by (eapply Hapart; eauto). exact Ht.
    + intros [= <-] u' m' Hm'. simpl in Hm'.
      destruct (Hinv u' m' Hm') as [Hk' Hown']. split; [exact Hk' |].
      intros Ho. destruct (Hown' Ho) as (expiry & Ht & Hn).
      cbn [redis now]. rewrite table_write.
      destruct (decide (lockKey r = lockKey (who m'))) as [Heq | Hneq].
      * exists (now (redis σ) + 60 * Second).
        split; [| cbn [now write]; unfold Second; lia].
        f_equal. f_equal. rewrite <- Heq, Ht0 in Ht. congruence.
      * exists expiry. split; [exact Ht | exact Hn].
Qed.

Lemma run_leases_held : forall es σ σ',
  leases_held σ -> run in_time es σ = Some σ' -> leases_held σ'.
Proof.
  induction es as [| e es IH]; intros σ σ' Hinv; simpl.
  - intros [= <-]. exact Hinv.
  - destruct (in_time σ e) eqn:Et; [| discriminate].
    destruct (step e σ) as [σ1 |] eqn:Es; [| discriminate].
    apply IH. eapply step_leases_held; eauto.
Qed.

Lemma leases_held_fleet0 : leases_held fleet0.
Proof. intros u m Hm. simpl in Hm. rewrite lookup_empty in Hm. discriminate. Qed.

(** C1, as the code has it. As long as time never runs past the expiry of
    a lock key whose owner is OWNING (every owner refreshes within the
    TTL), in any interleaving of the commands of any number of sessions
    against a server that honours SETNX and expiry, every owner is the
    holder of its lock key, and two sessions of one namespace that are
    OWNING at the same instant hold different ids. *)
Theorem owners_hold_distinct_ids (es : list event) (σ : fleet) :
  run in_time es fleet0 = Some σ ->
  (forall u m,
     members σ !! u = Some m -> stage m = OWNING ->
     holder (redis σ) (lockKey (who m)) = Some (uuid (who m))) /\
  distinct_owners σ.
Proof.
  intros Hrun.
  pose proof (run_leases_held es fleet0 σ leases_held_fleet0 Hrun) as Hinv.
  split.
  - intros u m Hm Ho. destruct (Hinv u m Hm) as [Hu Hown].
    destruct (Hown Ho) as (expiry & Ht & Hn).
    rewrite Hu. eapply holder_Some; eauto.
  - intros u1 u2 m1 m2 Hm1 Hm2 Hne Ho1 Ho2 Hns Hid.
    destruct (Hinv u1 m1 Hm1) as [_ Hown1]. destruct (Hown1 Ho1) as (e1 & Ht1 & _).
    destruct (Hinv u2 m2 Hm2) as [_ Hown2]. destruct (Hown2 Ho2) as (e2 & Ht2 & _).
    unfold lockKey, candidateLockKey in Ht1, Ht2.
    rewrite Hns, Hid, Ht2 in Ht1. congruence.
Qed.

Local Open Scope string_scope.
(** Two sessions on the range [0,1]: ["A"] takes 0; ["B"] loses 0, then
    takes 1; ["A"] refreshes before its key expires and later releases. *)
Lemma owners_hold_distinct_ids_witness :
  exists σ,
    run in_time
      [Enter (peer "A") ∅; Attempt "A" 5%nat; Elapse (59 * Second);
       Enter (peer "B") ∅; Attempt "B" 5%nat; Attempt "B" 5%nat;
       Tick "A" false; Elapse (59 * Second)] fleet0 = Some σ /\
    distinct_owners σ.
Proof.
  eexists. split; [vm_compute; reflexivity |].
  refine (proj2 (owners_hold_distinct_ids
    [Enter (peer "A") ∅; Attempt "A" 5%nat; Elapse (59 * Second);
     Enter (peer "B") ∅; Attempt "B" 5%nat; Attempt "B" 5%nat;
     Tick "A" false; Elapse (59 * Second)] _ _)).
  vm_compute. reflexivity.
Defined.

(** C1, as the claim has it, fails on a server that honours SETNX and
    expiry: ["A"] claims 0 and then sends nothing for 60 seconds; its key
    expires, ["B"] claims 0, and both are OWNING with the same id. *)
Lemma owners_counterexample :
  ~ (forall (es : list event) (σ : fleet),
       run any_time es fleet0 = Some σ -> distinct_owners σ).
Proof.
  intros Hall.
  pose (es := [Enter (peer "A") ∅; Attempt "A" 5%nat; Elapse (60 * Second);
               Enter (peer "B") ∅; Attempt "B" 5%nat]).
  destruct (run any_time es fleet0) as [σ |] eqn:Erun;
    [| vm_compute in Erun; discriminate].
  specialize (Hall es σ Erun).
  vm_compute in Erun. injection Erun as <-.
  eapply (Hall "A" "B").
  - vm_compute. reflexivity.
  - vm_compute. reflexivity.
  - discriminate.
  - reflexivity.
  - reflexivity.
  - reflexivity.
  - reflexivity.
Qed.
Local Close Scope string_scope.
(** * Further properties of the package *)

(** ** Strings, payloads and keys *)

Lemma append_assoc_string (s t u : string) : ((s +:+ t) +:+ u = s +:+ (t +:+ u))%string.
Proof.
  induction s as [| a s IH]; [reflexivity |].
  change (String a ((s +:+ t) +:+ u) = String a (s +:+ (t +:+ u)))%string.
  f_equal. exact IH.
Qed.

Lemma length_append_string (s t : string) :
  String.length (s +:+ t) = (String.length s + String.length t)%nat.
Proof.
  induction s as [| a s IH]; [reflexivity |].
  change (Datatypes.S (String.length (s +:+ t)) =
          Datatypes.S (String.length s + String.length t)).
  f_equal. exact IH.
Qed.

Lemma append_cancel_r (s1 s2 t : string) : (s1 +:+ t = s2 +:+ t)%string -> s1 = s2.
Proof.
  revert s2. induction s1 as [| a s1 IH]; intros [| b s2] Heq; simpl in Heq.
  - reflexivity.
  - apply (f_equal String.length) in Heq.
    rewrite !length_append_string in Heq. simpl in Heq. lia.
  - apply (f_equal String.length) in Heq.
    rewrite !length_append_string in Heq. simpl in Heq. lia.
  - change (String a (s1 +:+ t) = String b (s2 +:+ t))%string in Heq.
    injection Heq as -> Heq. f_equal. apply IH. exact Heq.
Qed.

Lemma contains_append s t c :
  contains (s +:+ t) c = contains s c || contains t c.
Proof.
  induction s as [| a s IH]; simpl; [reflexivity |].
  rewrite IH, orb_assoc. reflexivity.
Qed.

Lemma contains_sep s t c : contains (s +:+ String c t) c = true.
Proof.
  rewrite contains_append. simpl. rewrite Ascii.eqb_refl.
  apply orb_true_iff. right. reflexivity.
Qed.

(** The text after the last separator determines the split. *)
Lemma append_sep_inj c : forall s1 s2 d1 d2,
  contains d1 c = false -> contains d2 c = false ->
  (s1 +:+ String c d1 = s2 +:+ String c d2)%string -> s1 = s2 /\ d1 = d2.
Proof.
  induction s1 as [| a s1 IH]; intros [| b s2] d1 d2 H1 H2 Heq; simpl in Heq.
  - injection Heq as ->. auto.
  - injection Heq as <- ->. rewrite contains_sep in H1. discriminate.
  - injection Heq as -> <-. rewrite contains_sep in H2. discriminate.
  - injection Heq as -> Heq. destruct (IH s2 d1 d2 H1 H2 Heq) as [-> ->]. auto.
Qed.

Lemma fmtInt_inj i1 i2 :
  GoInt.MinInt <= i1 <= GoInt.MaxInt -> GoInt.MinInt <= i2 <= GoInt.MaxInt ->
  fmtInt i1 = fmtInt i2 -> i1 = i2.
Proof.
  intros H1 H2 Heq. apply Atoi_fmtInt in H1. apply Atoi_fmtInt in H2.
  rewrite Heq in H1. congruence.
Qed.

Lemma candidateLockKey_shape r i :
  candidateLockKey r i = ((namespace r +:+ ":id") +:+ String ":"%char (fmtInt i))%string.
Proof. unfold candidateLockKey. rewrite append_assoc_string. reflexivity. Qed.

(** X1. Lock keys tell sessions' ids and namespaces apart: the keys of two
    ids, under any two namespaces, are the same only when the namespaces
    are the same and the ids are the same. *)
Theorem lock_keys_injective (r1 r2 : Raus) (i1 i2 : Z) :
  GoInt.MinInt <= i1 <= GoInt.MaxInt -> GoInt.MinInt <= i2 <= GoInt.MaxInt ->
  candidateLockKey r1 i1 = candidateLockKey r2 i2 ->
  namespace r1 = namespace r2 /\ i1 = i2.
Proof.
  intros H1 H2. rewrite !candidateLockKey_shape. intros Heq.
  apply append_sep_inj in Heq as [Hns Hd]; try (apply fmtInt_no_colon; assumption).
  split; [exact (append_cancel_r _ _ _ Hns) | exact (fmtInt_inj _ _ H1 H2 Hd)].
Qed.

Local Open Scope string_scope.
(** Namespace ["a"] with id 11 against namespace ["a:id:1"] with id 1. *)
Lemma lock_keys_injective_witness :
  candidateLockKey (SetNamespace (peer "A") "a") 11 <>
  candidateLockKey (SetNamespace (peer "B") "a:id:1") 1.
Proof.
  intros Heq.
  destruct (lock_keys_injective (SetNamespace (peer "A") "a")
              (SetNamespace (peer "B") "a:id:1") 11 1) as [_ Hid].
  - unfold GoInt.MinInt, GoInt.MaxInt. lia.
  - unfold GoInt.MinInt, GoInt.MaxInt. lia.
  - exact Heq.
  - discriminate.
Defined.
Local Close Scope string_scope.

Lemma Split_nonempty s c : Split s c <> [].
Proof.
  destruct s as [| a s]; simpl; [discriminate |].
  destruct (Ascii.eqb a c); [discriminate |].
  destruct (Split s c); discriminate.
Qed.

Lemma Split_one c : forall s x, Split s c = [x] -> x = s /\ contains s c = false.
Proof.
  induction s as [| a s IH]; intros x; simpl.
  - intros [= <-]. auto.
  - destruct (Ascii.eqb a c) eqn:Ea.
    + intros [= _ Hs]. exfalso. exact (Split_nonempty _ _ Hs).
    + destruct (Split s c) as [| h t] eqn:Es; [intros _; exfalso; exact (Split_nonempty _ _ Es) |].
      intros [= <- ->]. destruct (IH h eq_refl) as [-> Hc]. rewrite Hc. auto.
Qed.

Lemma Split_two c : forall s s0 s1,
  Split s c = [s0; s1] ->
  s = (s0 +:+ String c s1)%string /\ contains s0 c = false /\ contains s1 c = false.
Proof.
  induction s as [| a s IH]; intros s0 s1; simpl; [discriminate |].
  destruct (Ascii.eqb_spec a c) as [-> | Hne].
  - intros [= <- Hs]. apply Split_one in Hs as [-> Hc]. auto.
  - destruct (Split s c) as [| h t] eqn:Es; [discriminate |].
    intros [= <- ->]. destruct (IH h s1 eq_refl) as (-> & H0 & H1).
    simpl. apply Ascii.eqb_neq in Hne. rewrite Hne, H0. auto.
Qed.

Lemma Atoi_inRange s n : Atoi s = Some n -> GoInt.MinInt <= n <= GoInt.MaxInt.
Proof.
  unfold Atoi. destruct s as [| c rest]; [discriminate |].
  match goal with |- context [match ?v with Some _ => _ | None => _ end] =>
    destruct v as [m |]; [| discriminate] end.
  destruct (GoInt.inRange m) eqn:Er; [| discriminate].
  intros [= <-]. apply inRange_spec. exact Er.
Qed.

(** X2. What [parsePayload] accepts: the payload is a uuid part without
    [':'], one [':'], and a text that [Atoi] reads as an [int]; and the
    pair it returns, written out again by [newPayload], parses to the same
    pair. *)
Theorem parsePayload_accepts (payload xuuid : string) (xid : Z) :
  parsePayload payload = Ok (xuuid, xid) ->
  contains xuuid ":"%char = false /\
  GoInt.MinInt <= xid <= GoInt.MaxInt /\
  (exists s1, payload = (xuuid +:+ ":" +:+ s1)%string /\
              contains s1 ":"%char = false /\ Atoi s1 = Some xid) /\
  parsePayload (newPayload xuuid xid) = Ok (xuuid, xid).
Proof.
  unfold parsePayload.
  destruct (Split payload ":"%char) as [| s0 [| s1 [| s2 l]]] eqn:Es; try discriminate.
  destruct (Atoi s1) as [n |] eqn:Ea; [| discriminate].
  intros [= <- <-].
  apply Split_two in Es as (-> & H0 & H1).
  pose proof (Atoi_inRange _ _ Ea) as Hr.
  split; [exact H0 |]. split; [exact Hr |]. split.
  - exists s1. auto.
  - apply parsePayload_newPayload; assumption.
Qed.

Local Open Scope string_scope.
(** A payload with a sign and leading zeros. *)
Lemma parsePayload_accepts_witness :
  parsePayload (newPayload "N1" 7) = Ok ("N1", 7).
Proof.
  refine (proj2 (proj2 (proj2 (parsePayload_accepts "N1:+007" "N1" 7 _)))).
  reflexivity.
Defined.
Local Close Scope string_scope.

Lemma length_Split s c : length (Split s c) = Datatypes.S (Count s c).
Proof.
  induction s as [| a s IH]; simpl; [reflexivity |].
  destruct (Ascii.eqb a c); simpl; [rewrite IH; reflexivity |].
  destruct (Split s c) as [| h t]; simpl in *; [discriminate | exact IH].
Qed.

Lemma Count_append s t c : Count (s +:+ t) c = (Count s c + Count t c)%nat.
Proof.
  induction s as [| a s IH]; simpl; [reflexivity |].
  destruct (Ascii.eqb a c); rewrite IH; reflexivity.
Qed.

Lemma Count_contains s c : contains s c = true -> (1 <= Count s c)%nat.
Proof.
  induction s as [| a s IH]; simpl; [discriminate |].
  destruct (Ascii.eqb a c); simpl; [lia | exact IH].
Qed.

(** X3. [parsePayload] rejects every payload that does not hold exactly
    one [':']; so a payload built by [newPayload] from a uuid that holds a
    [':'] is never read back, whatever the id. *)
Theorem parsePayload_one_colon :
  (forall payload,
     Count payload ":"%char <> 1%nat ->
     parsePayload payload = Error (ErrUnexpectedData payload)) /\
  (forall nonce i,
     contains nonce ":"%char = true ->
     parsePayload (newPayload nonce i) = Error (ErrUnexpectedData (newPayload nonce i))).
Proof.
  assert (Hfirst : forall payload,
            Count payload ":"%char <> 1%nat ->
            parsePayload payload = Error (ErrUnexpectedData payload)).
  { intros payload Hc. unfold parsePayload.
    pose proof (length_Split payload ":"%char) as Hl.
    destruct (Split payload ":"%char) as [| s0 [| s1 [| s2 l]]]; try reflexivity.
    simpl in Hl. exfalso. apply Hc. lia. }
  split; [exact Hfirst |].
  intros nonce i Hn. apply Hfirst. unfold newPayload.
  rewrite Count_append. apply Count_contains in Hn.
  change (":" +:+ fmtInt i)%string with (String ":"%char (fmtInt i)).
  simpl. lia.
Qed.

Local Open Scope string_scope.
(** A uuid with a [':'] in it. *)
Lemma parsePayload_one_colon_witness :
  parsePayload (newPayload "urn:uuid" 3) = Error (ErrUnexpectedData "urn:uuid:3").
Proof.
  apply (proj2 parsePayload_one_colon "urn:uuid" 3). reflexivity.
Defined.
Local Close Scope string_scope.

(** X4. For a range of [int]s that [New] accepts, [size] is the number
    [max - min] itself, between 1 and the largest [int]: the subtraction
    does not wrap. *)
Theorem size_of_New (f : fresh) (addr : string) (mn mx : Z) (r : Raus) :
  GoInt.MinInt <= mn <= GoInt.MaxInt -> GoInt.MinInt <= mx <= GoInt.MaxInt ->
  New f addr mn mx = Ok r ->
  size r = mx - mn /\ 1 <= size r <= GoInt.MaxInt.
Proof.
  intros Hmn Hmx. unfold New.
  destruct (Z.ltb_spec mn 0); [discriminate |].
  destruct (Z.geb_spec mn mx); [discriminate |].
  intros [= <-]. unfold size. simpl.
  rewrite wrap_id by (unfold GoInt.MinInt, GoInt.MaxInt in *; lia).
  unfold GoInt.MaxInt in *. lia.
Qed.

Local Open Scope string_scope.
(** The whole of the non-negative [int]s. *)
Lemma size_of_New_witness :
  size (mkRaus (fun _ => 0) "A" 0 0 GoInt.MaxInt "addr" "raus" "raus:broadcast" 0%nat)
  = GoInt.MaxInt - 0.
Proof.
  refine (proj1 (size_of_New (mkFresh (fun _ => 0) "A" 0%nat) "addr" 0 GoInt.MaxInt _ _ _ _)).
  - unfold GoInt.MinInt, GoInt.MaxInt. lia.
  - unfold GoInt.MinInt, GoInt.MaxInt. lia.
  - reflexivity.
Defined.
Local Close Scope string_scope.

(** ** More on LISTING *)

(** Where the ids of the table after one round come from. *)
Lemma LISTING_body_usedIds r ctx st next fl :
  LISTING_body r ctx st next = fl ->
  let st' := match fl with Continue s | Break s | Return _ s => s end in
  usedIds st ⊆ usedIds st' /\
  forall i, i ∈ usedIds st' ->
    i ∈ usedIds st \/
    exists d p u, next = Some (d, Ok (Message p)) /\
                  parsePayload p = Ok (u, i) /\ u <> uuid r.
Proof.
  intros <-. unfold LISTING_body.
  destruct (Done ctx (elapsed st)); [simpl; split; [reflexivity | auto] |].
  unfold ReceiveTimeout.
  destruct next as [[d [[p | |] | e]] |]; try destruct (d <? timeout); simpl;
    try (split; [reflexivity | auto]).
  destruct (parsePayload p) as [[u xid] | e] eqn:Ep; simpl;
    [| split; [reflexivity | auto]].
  destruct (String.eqb_spec u (uuid r)) as [-> | Hne]; simpl;
    [split; [reflexivity | auto] |].
  split; [apply union_subseteq_r |].
  intros i Hi. apply elem_of_union in Hi as [Hi | Hi]; [| auto].
  apply elem_of_singleton in Hi as ->. right. exists d, p, u. auto.
Qed.

Lemma LISTING_usedIds r ctx : forall arrivals st,
  let st' := (LISTING r ctx st arrivals).1 in
  usedIds st ⊆ usedIds st' /\
  forall i, i ∈ usedIds st' ->
    i ∈ usedIds st \/
    exists d p u, In (d, Ok (Message p)) arrivals /\
                  parsePayload p = Ok (u, i) /\ u <> uuid r.
Proof.
  induction arrivals as [| a rest IH]; intros st; simpl.
  - destruct (elapsed st <? timeout); [| simpl; split; [reflexivity | auto]].
    pose proof (LISTING_body_usedIds r ctx st None _ eq_refl) as [Hsub Hfrom].
    destruct (LISTING_body r ctx st None) as [s | s | e s]; simpl in *;
      (split; [exact Hsub |]); intros i Hi;
      (destruct (Hfrom i Hi) as [? | (d & p & u & Hn & _)]; [auto | discriminate]).
  - destruct (elapsed st <? timeout); [| simpl; split; [reflexivity | auto]].
    pose proof (LISTING_body_usedIds r ctx st (Some a) _ eq_refl) as [Hsub Hfrom].
    assert (Hhere : forall s,
              (forall i, i ∈ usedIds s ->
                 i ∈ usedIds st \/
                 exists d p u, Some a = Some (d, Ok (Message p)) /\
                               parsePayload p = Ok (u, i) /\ u <> uuid r) ->
              forall i, i ∈ usedIds s ->
                i ∈ usedIds st \/
                exists d p u, In (d, Ok (Message p)) (a :: rest) /\
                              parsePayload p = Ok (u, i) /\ u <> uuid r).
    { intros s Hs i Hi. destruct (Hs i Hi) as [? | (d & p & u & [= ->] & Hp & Hu)];
        [auto |]. right. exists d, p, u. simpl. auto. }
    destruct (LISTING_body r ctx st (Some a)) as [s | s | e s]; simpl in *.
    + destruct (IH s) as [Hsub' Hfrom']. split; [etransitivity; eassumption |].
      intros i Hi. destruct (Hfrom' i Hi) as [Hs | (d & p & u & Hin & Hp & Hu)].
      * apply (Hhere s Hfrom i Hs).
      * right. exists d, p, u. auto.
    + split; [exact Hsub | exact (Hhere s Hfrom)].
    + split; [exact Hsub | exact (Hhere s Hfrom)].
Qed.

(** X5. Every id in the table with which LISTING ends was carried by a
    message among those delivered whose payload parses and whose uuid is
    not the session's own: nothing else enters the table. *)
Theorem LISTING_table_from_peers (r : Raus) (ctx : context)
    (arrivals : list arrival) (i : Z) :
  i ∈ usedIds (LISTING r ctx listing0 arrivals).1 ->
  exists d p u,
    In (d, Ok (Message p)) arrivals /\ parsePayload p = Ok (u, i) /\ u <> uuid r.
Proof.
  intros Hi. destruct (LISTING_usedIds r ctx arrivals listing0) as [_ Hfrom].
  destruct (Hfrom i Hi) as [Hempty | Hex]; [| exact Hex].
  simpl in Hempty. apply not_elem_of_empty in Hempty. contradiction.
Qed.

Local Open Scope string_scope.
(** Two peers heard, one of them with a broken payload. *)
Lemma LISTING_table_from_peers_witness :
  exists d p u,
    In (d, Ok (Message p))
       [(Second, Ok (Message "N1:2")); (Second, Ok (Message "N2:x"))] /\
    parsePayload p = Ok (u, 2) /\ u <> "A".
Proof.
  apply (LISTING_table_from_peers (peer "A") (mkContext None)
           [(Second, Ok (Message "N1:2")); (Second, Ok (Message "N2:x"))] 2).
  vm_compute. reflexivity.
Defined.
Local Close Scope string_scope.

(** X6. LISTING reads nothing after a receive that returns an error or
    runs into its timeout: what is delivered afterwards changes neither
    the table nor the outcome. *)
Theorem LISTING_ends_at_receive_error (r : Raus) (ctx : context)
    (pre post post' : list arrival) (a : arrival) (st : listing) :
  (timeout <= a.1 \/ exists e, a.2 = Error e) ->
  LISTING r ctx st (pre ++ a :: post) = LISTING r ctx st (pre ++ a :: post').
Proof.
  intros Ha. revert st. induction pre as [| b pre IH]; intros st; simpl.
  - destruct (elapsed st <? timeout); [| reflexivity].
    unfold LISTING_body. destruct (Done ctx (elapsed st)); [reflexivity |].
    unfold ReceiveTimeout. destruct a as [d m]. simpl in Ha.
    destruct (Z.ltb_spec d timeout) as [Hlt | Hge]; [| reflexivity].
    destruct Ha as [Hlate | [e ->]]; [lia | reflexivity].
  - destruct (elapsed st <? timeout); [| reflexivity].
    destruct (LISTING_body r ctx st (Some b)); [apply IH | reflexivity | reflexivity].
Qed.

Local Open Scope string_scope.
(** A connection error after one second; the peer on 2 is never heard. *)
Lemma LISTING_ends_at_receive_error_witness :
  LISTING (peer "A") (mkContext None) listing0
    ([] ++ (Second, Error (ErrRedis "EOF")) :: [(Second, Ok (Message "N1:2"))]) =
  LISTING (peer "A") (mkContext None) listing0
    ([] ++ (Second, Error (ErrRedis "EOF")) :: []).
Proof.
  apply (LISTING_ends_at_receive_error (peer "A") (mkContext None) []
           [(Second, Ok (Message "N1:2"))] [] (Second, Error (ErrRedis "EOF"))).
  right. exists (ErrRedis "EOF"). reflexivity.
Defined.
Local Close Scope string_scope.

Lemma LISTING_unknown r ctx st d rest :
  elapsed st < timeout -> Done ctx (elapsed st) = false -> d < timeout ->
  exists st',
    LISTING r ctx st ((d, Ok Pong) :: rest) = (st', Some ErrUnknownMessage) /\
    usedIds st' = usedIds st.
Proof.
  intros Ht Hd Hlt. simpl.
  destruct (Z.ltb_spec (elapsed st) timeout); [| lia].
  unfold LISTING_body, ReceiveTimeout. rewrite Hd.
  destruct (Z.ltb_spec d timeout); [| lia]. eauto.
Qed.

(** X7. A message that is neither a [*redis.Message] nor a
    [*redis.Subscription], received at any point of LISTING, makes
    [subscribe] raise [unknown redis message] and return: [Get] fails
    with it and no command is sent. A [*redis.Subscription] is passed
    over: the table and the log stay as they are. *)
Theorem unknown_message_fails_acquire {S : Type} `{Redis S} (r : Raus)
    (ctx : context) (pre post : list arrival) (d : Z) (st : listing)
    (fuel : nat) (c : S) :
  LISTING_through r ctx listing0 pre = Some st ->
  elapsed st < timeout ->
  Done ctx (elapsed st) = false ->
  d < timeout ->
  (exists a,
     acquire fuel r ctx None (pre ++ (d, Ok Pong) :: post) c = Some a /\
     first a = Some ErrUnknownMessage /\ link a = c) /\
  Get fuel r ctx None (pre ++ (d, Ok Pong) :: post) c =
    Some (ErrorID, None, Some ErrUnknownMessage) /\
  LISTING_body r ctx st (Some (d, Ok Subscription)) =
    Continue {| elapsed := elapsed st + Z.max 0 d; usedIds := usedIds st;
                receives := receives st ++ [(elapsed st, timeout)];
                llog := llog st |}.
Proof.
  intros Hpre Ht Hd Hlt.
  destruct (LISTING_unknown r ctx st d post Ht Hd Hlt) as (st' & Hl & _).
  assert (Ha : acquire fuel r ctx None (pre ++ (d, Ok Pong) :: post) c =
               Some {| self := r; link := c; heard := st'; alog := [];
                       first := Some ErrUnknownMessage |}).
  { unfold acquire. rewrite (LISTING_through_app _ _ _ _ _ _ Hpre), Hl. reflexivity. }
  split; [| split].
  - eexists. split; [exact Ha |]. simpl. auto.
  - unfold Get. rewrite Ha. reflexivity.
  - unfold LISTING_body, ReceiveTimeout. rewrite Hd.
    destruct (Z.ltb_spec d timeout); [reflexivity | lia].
Qed.

Local Open Scope string_scope.
(** A pong right after the subscription is confirmed. *)
Lemma unknown_message_fails_acquire_witness :
  Get 5 (peer "A") (mkContext None) None
      ([(0, Ok Subscription)] ++ (Second, Ok Pong) :: []) (mkRecorder [] [])
  = Some (ErrorID, None, Some ErrUnknownMessage).
Proof.
  refine (proj1 (proj2 (unknown_message_fails_acquire (peer "A") (mkContext None)
    [(0, Ok Subscription)] [] Second
    {| elapsed := 0; usedIds := ∅; receives := [(0, timeout)]; llog := [] |}
    5 (mkRecorder [] []) _ _ _ _)));
    reflexivity.
Defined.
Local Close Scope string_scope.

Section CancelFacts.
Context {S : Type} `{Redis S}.

(** X8. A context that is already cancelled when [subscribe] starts makes
    [Get] fail with [canceled] before any receive is issued or any command
    sent; and whenever [Get] succeeds, the context was not cancelled when
    LISTING was over. *)
Theorem cancelled_context_fails_acquire (fuel : nat) (r : Raus) (ctx : context)
    (arrivals : list arrival) (c : S) :
  (Done ctx 0 = true ->
   acquire fuel r ctx None arrivals c =
     Some {| self := r; link := c; heard := listing0; alog := [];
             first := Some ErrCanceled |} /\
   Get fuel r ctx None arrivals c = Some (ErrorID, None, Some ErrCanceled)) /\
  (forall a sub,
     acquire fuel r ctx sub arrivals c = Some a -> first a = None ->
     Done ctx (elapsed (heard a)) = false).
Proof.
  split.
  - intros Hd.
    assert (Hl : LISTING r ctx listing0 arrivals = (listing0, Some ErrCanceled)).
    { destruct arrivals; simpl; unfold LISTING_body; simpl; rewrite Hd; reflexivity. }
    unfold Get, acquire. rewrite Hl. auto.
  - intros a sub. unfold acquire.
    destruct sub as [e |]; [intros [= <-]; discriminate |].
    destruct (LISTING r ctx listing0 arrivals) as [st [e |]];
      [intros [= <-]; discriminate |].
    destruct (Done ctx (elapsed st)) eqn:Ed; [intros [= <-]; discriminate |].
    destruct (LOCKING _ _ _ _) as [[[r' st'] e] |]; [| discriminate].
    intros [= <-] _. exact Ed.
Qed.

End CancelFacts.

Local Open Scope string_scope.
(** Cancelled before the start, with a peer ready to be heard. *)
Lemma cancelled_context_fails_acquire_witness :
  Get 5 (peer "A") (mkContext (Some (-1))) None
      [(Second, Ok (Message "N1:1"))] (mkRecorder [] [])
  = Some (ErrorID, None, Some ErrCanceled).
Proof.
  refine (proj2 (proj1 (cancelled_context_fails_acquire 5 (peer "A")
    (mkContext (Some (-1))) [(Second, Ok (Message "N1:1"))] (mkRecorder [] [])) _)).
  reflexivity.
Defined.
Local Close Scope string_scope.

(** ** More on LOCKING, for any server *)

(** What the scan returns, for any bound and any fuel: what it was given
    and ids that are not in the table, ten at the most. *)
Lemma scan_sound mx (used : gset Z) : forall fuel i cand cs,
  scan fuel mx used i cand = Some cs ->
  (Forall (fun c => c ∉ used) cand -> Forall (fun c => c ∉ used) cs) /\
  ((length cand < maxCandidate)%nat -> (length cs <= maxCandidate)%nat).
Proof.
  induction fuel as [| fuel IH]; intros i cand cs; [discriminate |].
  rewrite scan_S. destruct (i <=? mx); [| intros [= <-]; split; [auto | lia]].
  destruct (decide (i ∈ used)) as [Hin | Hout]; [apply IH |].
  assert (Hlen : length (cand ++ [i]) = Datatypes.S (length cand))
    by (rewrite length_app; simpl; lia).
  destruct (Nat.leb_spec maxCandidate (length (cand ++ [i]))) as [Hfull | Hroom].
  - intros [= <-]. split; [| lia].
    intros Hc. apply Forall_app. split; [exact Hc | repeat constructor; exact Hout].
  - intros Hs. destruct (IH _ _ _ Hs) as [Hu Hl]. split.
    + intros Hc. apply Hu, Forall_app. split; [exact Hc | repeat constructor; exact Hout].
    + intros _. apply Hl. lia.
Qed.

(** Below the largest [int] the scan stays between where it starts and
    its bound. *)
Lemma scan_in_range mx (used : gset Z) :
  mx < GoInt.MaxInt ->
  forall fuel i cand cs,
    GoInt.MinInt <= i ->
    scan fuel mx used i cand = Some cs ->
    forall lo, lo <= i -> Forall (fun c => lo <= c <= mx) cand ->
    Forall (fun c => lo <= c <= mx) cs.
Proof.
  intros Hmx. induction fuel as [| fuel IH]; intros i cand cs Hi; [discriminate |].
  rewrite scan_S. destruct (Z.leb_spec i mx) as [Hle | Hgt];
    [| intros [= <-]; auto].
  rewrite incr_below by lia.
  destruct (decide (i ∈ used)) as [Hin | Hout].
  - intros Hs lo Hlo Hc. eapply IH; [| exact Hs | | exact Hc]; lia.
  - destruct (maxCandidate <=? length (cand ++ [i]))%nat.
    + intros [= <-] lo Hlo Hc. apply Forall_app. split; [exact Hc |].
      repeat constructor; lia.
    + intros Hs lo Hlo Hc. eapply IH; [| exact Hs | |]; try lia.
      apply Forall_app. split; [exact Hc |]. repeat constructor; lia.
Qed.

Lemma candidates_facts (fuel : nat) (r : Raus) (used : gset Z) (cs : list Z) :
  candidates fuel r used = Some cs ->
  (length cs <= 10)%nat /\
  Forall (fun c => c ∉ used) cs /\
  (GoInt.MinInt <= min r -> max r < GoInt.MaxInt ->
   Forall (fun c => min r <= c <= max r) cs).
Proof.
  unfold candidates. intros Hs.
  destruct (scan_sound _ _ _ _ _ _ Hs) as [Hu Hl].
  split; [apply Hl; unfold maxCandidate; simpl; lia |].
  split; [apply Hu; constructor |].
  intros Hmin Hmax.
  apply (scan_in_range _ _ Hmax _ _ _ _ Hmin Hs (min r) ltac:(lia)). constructor.
Qed.

(** X9. Whatever the range, the table and the fuel, the scan never
    returns more than 10 candidates and never one that is in the table;
    and when [max] is below the largest [int], every candidate lies in
    [min..max]. *)
Theorem candidates_sound (fuel : nat) (r : Raus) (used : gset Z) (cs : list Z) :
  candidates fuel r used = Some cs ->
  (length cs <= 10)%nat /\
  Forall (fun c => c ∉ used) cs /\
  (GoInt.MinInt <= min r -> max r < GoInt.MaxInt ->
   Forall (fun c => min r <= c <= max r) cs).
Proof.
  intros Hs. destruct (candidates_facts _ _ _ _ Hs) as (Hlen & Hout & Hrange).
  split; [exact Hlen |]. split; [exact Hout | exact Hrange].
Qed.

Local Open Scope string_scope.
(** The range [0,99] with 3 heard: ten candidates, 3 not among them. *)
Lemma candidates_sound_witness :
  Forall (fun c => c ∉ ({[3]} : gset Z)) [0; 1; 2; 4; 5; 6; 7; 8; 9; 10].
Proof.
  refine (proj1 (proj2 (candidates_sound 20
    (mkRaus (fun _ => 0) "A" 0 0 99 "addr" "raus" "raus:broadcast" 0%nat)
    {[3]} _ _))).
  vm_compute. reflexivity.
Defined.
Local Close Scope string_scope.

Section LockingAnyServer.
Context {S : Type} `{Redis S}.

(** One round: where the struct and the table go. *)
Lemma LOCKING_body_pick fuel r (st : locking S) fl :
  LOCKING_body fuel r st = Some fl ->
  match fl with
  | Break (r', st') =>
      exists cs c, candidates fuel r (used st) = Some cs /\ c ∈ cs /\
                   r' = set_id r c /\ used st' = used st /\
                   draws st' = Datatypes.S (draws st)
  | Continue (r', st') =>
      exists cs c, candidates fuel r (used st) = Some cs /\ c ∈ cs /\
                   r' = r /\ used st' = {[c]} ∪ used st /\
                   draws st' = Datatypes.S (draws st)
  | Return e (r', st') => r' = r /\ used st' = used st
  end.
Proof.
  unfold LOCKING_body.
  destruct (candidates fuel r (used st)) as [[| c0 cs] |] eqn:Ec; try discriminate.
  - intros [= <-]. auto.
  - assert (Hpick : nth (Z.to_nat (Intn r (draws st) (Z.of_nat (length (c0 :: cs)))))
                        (c0 :: cs) 0 ∈ c0 :: cs)
      by (apply Intn_pick; discriminate).
    destruct (SetNX _ _ _ _) as [[[|] | e] c']; intros [= <-]; simpl; eauto 10.
Qed.

Lemma LOCKING_claimed rounds fuel : forall r (st : locking S) r' st',
  LOCKING rounds fuel r st = Some (r', st', None) ->
  exists c, r' = set_id r c /\ (c ∉ used st) /\
            (GoInt.MinInt <= min r -> max r < GoInt.MaxInt -> min r <= c <= max r).
Proof.
  induction rounds as [| rounds IH]; intros r st r' st'; simpl; [discriminate |].
  destruct (LOCKING_body fuel r st) as [fl |] eqn:Eb; [| discriminate].
  apply LOCKING_body_pick in Eb.
  destruct fl as [[r1 st1] | [r1 st1] | e1 [r1 st1]]; [| | discriminate].
  - destruct Eb as (cs & c & _ & _ & -> & Hu & _). intros Hrun.
    destruct (IH _ _ _ _ Hrun) as (c' & -> & Hout & Hrange).
    exists c'. split; [reflexivity |]. split; [| exact Hrange].
    rewrite Hu in Hout. intros Hin. apply Hout, elem_of_union_r, Hin.
  - destruct Eb as (cs & c & Hcs & Hc & -> & _ & _). intros [= <- _].
    destruct (candidates_facts _ _ _ _ Hcs) as (_ & Hout & Hrange).
    exists c. split; [reflexivity |]. split.
    + rewrite Forall_forall in Hout. apply Hout, Hc.
    + intros Hmin Hmax. specialize (Hrange Hmin Hmax).
      rewrite Forall_forall in Hrange. apply Hrange, Hc.
Qed.

Lemma LISTING_usedIds_mono r ctx arrivals st :
  usedIds st ⊆ usedIds (LISTING r ctx st arrivals).1.
Proof. apply LISTING_usedIds. Qed.

Lemma Get_id_facts (fuel : nat) (r : Raus) (ctx : context)
    (sub : option error) (arrivals : list arrival) (c : S)
    (i : Z) (ch : option chan) :
  Get fuel r ctx sub arrivals c = Some (i, ch, None) ->
  (i ∉ usedIds (LISTING r ctx listing0 arrivals).1) /\
  (0 <= min r -> max r < GoInt.MaxInt -> min r <= i <= max r /\ i <> ErrorID).
Proof.
  unfold Get, acquire. destruct sub as [e |]; [discriminate |].
  destruct (LISTING r ctx listing0 arrivals) as [st [e |]]; [discriminate |].
  destruct (Done ctx (elapsed st)); [discriminate |].
  destruct (LOCKING _ _ _ _) as [[[r' st'] [e |]] |] eqn:El; try discriminate.
  simpl. intros [= <- _].
  destruct (LOCKING_claimed _ _ _ _ _ _ El) as (c0 & -> & Hout & Hrange).
  simpl in *. split; [exact Hout |].
  intros Hmin Hmax.
  assert (Hr : min r <= c0 <= max r) by (apply Hrange; unfold GoInt.MinInt; lia).
  split; [exact Hr | unfold ErrorID; lia].
Qed.

(** X10. Whatever the server answers: an id that [Get] returns was not in
    the table LISTING ended with; and for a range that [New] accepts with
    [max] below the largest [int], it lies in [min..max] and is therefore
    never [ErrorID]. *)
Theorem Get_id_sound (fuel : nat) (r : Raus) (ctx : context)
    (sub : option error) (arrivals : list arrival) (c : S)
    (i : Z) (ch : option chan) :
  Get fuel r ctx sub arrivals c = Some (i, ch, None) ->
  (i ∉ usedIds (LISTING r ctx listing0 arrivals).1) /\
  (0 <= min r -> max r < GoInt.MaxInt -> min r <= i <= max r /\ i <> ErrorID).
Proof.
  intros Hget. destruct (Get_id_facts _ _ _ _ _ _ _ _ Hget) as [Hout Hrange].
  split; [exact Hout | exact Hrange].
Qed.

(** X11. A peer's heartbeat heard at any point of LISTING keeps [Get]
    from returning that peer's id, whatever the server answers. *)
Theorem heard_id_is_avoided (fuel : nat) (r other : Raus) (ctx : context)
    (pre post : list arrival) (d : Z) (st : listing) (c : S)
    (i : Z) (ch : option chan) :
  contains (uuid other) ":"%char = false ->
  GoInt.MinInt <= id other <= GoInt.MaxInt ->
  uuid other <> uuid r ->
  LISTING_through r ctx listing0 pre = Some st ->
  elapsed st < timeout ->
  Done ctx (elapsed st) = false ->
  d < timeout ->
  Get fuel r ctx None
      (pre ++ (d, Ok (Message (newPayload (uuid other) (id other)))) :: post) c
    = Some (i, ch, None) ->
  i <> id other.
Proof.
  intros Hcolon Hid Hne Hpre Ht Hd Hlt Hget.
  apply Get_id_facts in Hget as [Hout _].
  rewrite (LISTING_through_app _ _ _ _ _ _ Hpre) in Hout.
  intros ->. apply Hout. clear Hout.
  simpl. destruct (Z.ltb_spec (elapsed st) timeout); [| lia].
  unfold LISTING_body, ReceiveTimeout. rewrite Hd.
  destruct (Z.ltb_spec d timeout); [| lia].
  rewrite (parsePayload_newPayload _ _ Hcolon Hid).
  apply String.eqb_neq in Hne. rewrite Hne.
  match goal with |- _ ∈ usedIds (LISTING _ _ ?s _).1 =>
    apply (LISTING_usedIds_mono r ctx post s) end.
  simpl. apply elem_of_union_l, elem_of_singleton. reflexivity.
Qed.

End LockingAnyServer.

Local Open Scope string_scope.
(** Range [0,1], nothing heard, the first SETNX granted. *)
Lemma Get_id_sound_witness :
  0 <= 0 <= 1 /\ 0 <> ErrorID.
Proof.
  refine (proj2 (Get_id_sound 5 (peer "A") (mkContext None) None []
                   (mkRecorder [] []) 0 (Some 0%nat) _) _ _).
  - reflexivity.
  - simpl. lia.
  - simpl. unfold GoInt.MaxInt. lia.
Defined.

(** Range [0,1] with the peer that holds 0 heard: [Get] returns 1. *)
Lemma heard_id_is_avoided_witness : 1 <> 0.
Proof.
  refine (heard_id_is_avoided 5 (peer "A") (peer "B") (mkContext None)
    [] [] Second listing0 (mkRecorder [] []) 1 (Some 0%nat) _ _ _ _ _ _ _ _).
  - reflexivity.
  - simpl. unfold GoInt.MinInt, GoInt.MaxInt. lia.
  - discriminate.
  - reflexivity.
  - reflexivity.
  - reflexivity.
  - reflexivity.
  - vm_compute. reflexivity.
Defined.
Local Close Scope string_scope.

(** ** LOCKING and publish against the server that keeps its word *)

Lemma holder_write key val ttl s :
  0 < ttl -> holder (write key val ttl s) key = Some val.
Proof.
  intros Httl. unfold holder. rewrite table_write, decide_True by reflexivity.
  cbn [now write]. destruct (Z.ltb_spec (now s) (now s + ttl)); [reflexivity | lia].
Qed.

Lemma LOCKING_server rounds fuel : forall r (st : locking server) r' st' e,
  LOCKING rounds fuel r st = Some (r', st', e) ->
  match e with
  | None =>
      holder (conn st) (lockKey r') = None /\
      conn st' = write (lockKey r') (uuid r) (60 * Second) (conn st)
  | Some err => err = ErrNoMoreId /\ conn st' = conn st
  end.
Proof.
  induction rounds as [| rounds IH]; intros r st r' st' e; simpl; [discriminate |].
  destruct (LOCKING_body fuel r st) as [fl |] eqn:Eb; [| discriminate].
  apply LOCKING_body_server in Eb.
  destruct Eb as [-> | (c & st1 & [(Hheld & -> & Hc) | (Hfree & -> & Hc)])].
  - intros [= <- <- <-]. auto.
  - intros Hrun. specialize (IH _ _ _ _ _ Hrun). rewrite Hc in IH. exact IH.
  - intros [= <- <- <-]. auto.
Qed.

(** X12. Against a server that honours SETNX and never fails, LOCKING ends
    in one of two ways only. Either it claims an id: the lock key of that
    id had no holder, and the server is as before but for that key, now
    held by the session's uuid for 60 seconds. Or it ends with [no more
    available id] and the server is exactly as before. *)
Theorem LOCKING_on_server (rounds fuel : nat) (r : Raus) (st : locking server)
    (r' : Raus) (st' : locking server) (e : option error) :
  LOCKING rounds fuel r st = Some (r', st', e) ->
  match e with
  | None =>
      holder (conn st) (lockKey r') = None /\
      conn st' = write (lockKey r') (uuid r) (60 * Second) (conn st) /\
      holder (conn st') (lockKey r') = Some (uuid r) /\
      table (conn st') !! lockKey r' = Some (uuid r, now (conn st) + 60 * Second)
  | Some err => err = ErrNoMoreId /\ conn st' = conn st
  end.
Proof.
  intros Hrun. apply LOCKING_server in Hrun.
  destruct e as [err |]; [exact Hrun |].
  destruct Hrun as [Hfree ->]. split; [exact Hfree |]. split; [reflexivity |].
  split; [apply holder_write; unfold Second; lia |].
  rewrite table_write, decide_True by reflexivity. reflexivity.
Qed.

Local Open Scope string_scope.
(** Range [0,1] with key 0 held by a peer: the session ends up with 1. *)
Lemma LOCKING_on_server_witness :
  holder {| now := 5; table := {["raus:id:0" := ("B", 9)]} |}
         (lockKey (set_id (peer "A") 1)) = None.
Proof.
  refine (proj1 (LOCKING_on_server 5 5 (peer "A")
    {| conn := {| now := 5; table := {["raus:id:0" := ("B", 9)]} |};
       used := ∅; draws := 0; klog := [] |}
    (set_id (peer "A") 1) _ None _)).
  vm_compute. reflexivity.
Defined.
Local Close Scope string_scope.

(** X13. Against a server that never fails, a tick with the context live
    leaves the session's uuid as the holder of its lock key, for 60
    seconds from now, whoever held the key before; a tick with the
    context cancelled leaves the key without a holder, whoever held it.
    No other key is touched. *)
Theorem publish_tick_on_server (r : Raus) (payload : string) (s : server)
    (lg : list logline) :
  (exists s',
     publish_tick r payload false (s, lg) = Continue (s', lg) /\
     holder s' (lockKey r) = Some (uuid r) /\
     table s' !! lockKey r = Some (uuid r, now s + 60 * Second) /\
     now s' = now s /\
     forall k, k <> lockKey r -> table s' !! k = table s !! k) /\
  (exists s',
     publish_tick r payload true (s, lg) =
       Break (s', lg ++ [LogShuttingDown; LogLockRemoved (lockKey r)]) /\
     holder s' (lockKey r) = None /\
     now s' = now s /\
     forall k, k <> lockKey r -> table s' !! k = table s !! k).
Proof.
  split.
  - exists (write (lockKey r) (uuid r) (60 * Second) s).
    split; [reflexivity |].
    split; [apply holder_write; unfold Second; lia |].
    split; [rewrite table_write, decide_True by reflexivity; reflexivity |].
    split; [reflexivity |].
    intros k Hk. rewrite table_write, decide_False by congruence. reflexivity.
  - exists {| now := now s; table := delete (lockKey r) (table s) |}.
    split; [reflexivity |].
    split; [unfold holder; cbn [table]; rewrite lookup_delete_eq; reflexivity |].
    split; [reflexivity |].
    intros k Hk. cbn [table]. rewrite lookup_delete_ne by congruence. reflexivity.
Qed.

(** ** More on publish *)

Lemma publish_tick_recorder r payload (done : bool) (s : recorder) lg :
  exists s' lg' new,
    publish_tick r payload done (s, lg) =
      (if done then Break (s', lg') else Continue (s', lg')) /\
    calls s' = calls s ++ new /\
    (if done then new = [CallDel (lockKey r)]
     else new = [CallPublish (pubSubChannel r) payload] \/
          new = [CallPublish (pubSubChannel r) payload;
                 CallSet (lockKey r) (uuid r) (60 * Second)]).
Proof.
  destruct done.
  - cbn [publish_tick Del recorder_redis]. unfold record.
    destruct (answers s) as [| [] rest]; cbn [went_through];
      eexists _, _, _; (split; [reflexivity |]); split; reflexivity.
  - cbn [publish_tick Publish Set_ recorder_redis]. unfold record.
    destruct (answers s) as [| [] [| [] rest]]; cbn [went_through answers calls];
      eexists _, _, _; (split; [reflexivity |]);
      (split; [cbn [calls]; rewrite <- ?app_assoc; reflexivity |]);
      ((left; reflexivity) || (right; reflexivity)).
Qed.

Lemma publish_loop_recorder r payload : forall ticks (s : recorder) lg,
  let out := publish_loop r payload ticks (s, lg) in
  exists live,
    Forall (fun c => c = CallPublish (pubSubChannel r) payload \/
                     c = CallSet (lockKey r) (uuid r) (60 * Second)) live /\
    calls out.1.1 =
      calls s ++ live ++ (if out.2 then [CallDel (lockKey r)] else []).
Proof.
  induction ticks as [| done ticks IH]; intros s lg; cbv zeta; cbn [publish_loop].
  - exists []. split; [constructor | simpl; rewrite app_nil_r; reflexivity].
  - destruct (publish_tick_recorder r payload done s lg)
      as (s' & lg' & new & -> & Hcalls & Hnew).
    destruct done.
    + exists []. split; [constructor |]. simpl. rewrite Hcalls, Hnew. reflexivity.
    + destruct (IH s' lg') as (live & Hlive & Hrest).
      exists (new ++ live). split.
      * apply Forall_app. split; [| exact Hlive].
        destruct Hnew as [-> | ->];
          repeat (apply List.Forall_cons; [auto |]); apply List.Forall_nil.
      * rewrite Hrest, Hcalls, <- !app_assoc. reflexivity.
Qed.

(** X14. Whatever the server answers and however many ticks fire, the
    publisher sends nothing but PUBLISH of its payload on the broadcast
    channel and SET of its own lock key with its uuid and 60 seconds, and,
    as its very last command and only when it returns, one DEL of its own
    lock key; it never sends SETNX and never names another key. *)
Theorem publisher_commands (r : Raus) (ticks : list bool) (s : recorder) :
  let out := publish r ticks s in
  exists live,
    Forall (fun c => c = CallPublish (pubSubChannel r) (newPayload (uuid r) (id r)) \/
                     c = CallSet (lockKey r) (uuid r) (60 * Second)) live /\
    calls out.1.1 =
      calls s ++ live ++ (if out.2 then [CallDel (lockKey r)] else []) /\
    out.2 = existsb (fun done => done) ticks.
Proof.
  unfold publish.
  destruct (publish_loop_recorder r (newPayload (uuid r) (id r)) ticks s [])
    as (live & Hlive & Hcalls).
  exists live. split; [exact Hlive |]. split; [exact Hcalls |].
  apply publish_loop_returned.
Qed.
(** ** Heartbeats as the watcher sees them *)

(** X15. What the watcher does with a heartbeat as [publish] builds it,
    from a session whose uuid holds no [':']: it raises [duplicate id
    detected] exactly when the heartbeat names the id this session owns
    under another uuid; on any other heartbeat, its own included, it goes
    on with nothing sent and nothing logged. *)
Theorem watcher_on_heartbeat (r other : Raus) (st : watching) :
  contains (uuid other) ":"%char = false ->
  GoInt.MinInt <= id other <= GoInt.MaxInt ->
  WATCHING_body r st (Ok (newPayload (uuid other) (id other))) =
    if (id other =? id r) && negb (String.eqb (uuid other) (uuid r)) then
      Return ErrDuplicateId
        {| posted := posted st ++ [ErrDuplicateId];
           wlog := wlog st ++ [LogDuplicateId (id other) (uuid other)] |}
    else Continue st.
Proof.
  intros Hc Hi. unfold WATCHING_body.
  rewrite (parsePayload_newPayload _ _ Hc Hi). reflexivity.
Qed.

Local Open Scope string_scope.
(** The session's own heartbeat. *)
Lemma watcher_on_heartbeat_witness :
  WATCHING_body (set_id (peer "A") 1) {| posted := []; wlog := [] |}
                (Ok (newPayload "A" 1))
  = Continue {| posted := []; wlog := [] |}.
Proof.
  refine (watcher_on_heartbeat (set_id (peer "A") 1) (set_id (peer "A") 1)
            {| posted := []; wlog := [] |} _ _).
  - reflexivity.
  - simpl. unfold GoInt.MinInt, GoInt.MaxInt. lia.
Defined.
Local Close Scope string_scope.

(** ** What subscribe sends on the channel *)


Local Open Scope string_scope.
Local Close Scope string_scope.

(** ** LOCKING against the server: full and free ranges *)

Section LockingEnds.
Context {S : Type} `{Redis S}.
Variable r : Raus.
Variable fuel : nat.
Hypothesis Hmin : 0 <= min r.
Hypothesis Hlt : min r < max r.
Hypothesis Hmax : max r < GoInt.MaxInt.
Hypothesis Hfuel : (Z.to_nat (max r - min r + 1) < fuel)%nat.

Lemma LOCKING_terminates : forall n rounds (st : locking S),
  (length (free_ids r (used st)) <= n)%nat -> (n < rounds)%nat ->
  exists r' st' e,
    LOCKING rounds fuel r st = Some (r', st', e) /\
    (draws st' <= draws st + n)%nat.
Proof.
  induction n as [| n IH]; intros rounds st Hn Hr;
    (destruct rounds as [| rounds]; [lia |]); simpl LOCKING.
  - assert (He : free_ids r (used st) = [])
      by (destruct (free_ids r (used st)); [reflexivity | simpl in Hn; lia]).
    rewrite (LOCKING_body_empty r fuel Hmin Hlt Hmax Hfuel st He).
    exists r, st, (Some ErrNoMoreId). split; [reflexivity | lia].
  - destruct (free_ids r (used st)) as [| f0 fs] eqn:Ef.
    { rewrite (LOCKING_body_empty r fuel Hmin Hlt Hmax Hfuel st Ef).
      exists r, st, (Some ErrNoMoreId). split; [reflexivity | lia]. }
    assert (Hne : free_ids r (used st) <> []) by (rewrite Ef; discriminate).
    destruct (LOCKING_body_nonempty r fuel Hmin Hlt Hmax Hfuel st Hne) as [Hc Hb].
    rewrite <- Ef in *. clear Ef.
    set (cs := take maxCandidate (free_ids r (used st))) in *.
    set (c := nth (Z.to_nat (Intn r (draws st) (Z.of_nat (length cs)))) cs 0) in *.
    assert (Hfree : c ∈ free_ids r (used st))
      by (apply (subseteq_take maxCandidate); exact Hc).
    rewrite Hb.
    destruct (SetNX (candidateLockKey r c) (uuid r) (60 * Second) (conn st))
      as [[[|] | e] c']; simpl.
    + eexists _, _, None. split; [reflexivity |]. simpl. lia.
    + pose proof (free_ids_shrink r (used st) c Hfree) as Hsh.
      edestruct (IH rounds) as (r' & st' & e & Hrun & Hd);
        [| | exists r', st', e; split; [exact Hrun |]];
        simpl in *; lia.
    + eexists _, _, (Some e). split; [reflexivity |]. simpl. lia.
Qed.

End LockingEnds.

(** X19. Against a server that honours SETNX and never fails, when every
    lock key of the range has a holder once LISTING is over, [Get] fails
    with [no more available id] and leaves the server exactly as it was. *)
Theorem full_range_is_exhausted (fuel : nat) (r : Raus) (ctx : context)
    (arrivals : list arrival) (s : server) (st : listing) :
  0 <= min r -> min r < max r -> max r < GoInt.MaxInt ->
  (Z.to_nat (max r - min r + 1) < fuel)%nat ->
  (forall i, min r <= i <= max r -> is_Some (holder s (candidateLockKey r i))) ->
  LISTING r ctx listing0 arrivals = (st, None) ->
  Done ctx (elapsed st) = false ->
  Get fuel r ctx None arrivals s = Some (ErrorID, None, Some ErrNoMoreId) /\
  exists a, acquire fuel r ctx None arrivals s = Some a /\ link a = s.
Proof.
  intros Hmin Hlt Hmax Hfuel Hfull Hl Hd. unfold Get, acquire. rewrite Hl, Hd.
  destruct (LOCKING_terminates r fuel Hmin Hlt Hmax Hfuel
              (Z.to_nat (max r - min r + 1)) fuel
              {| conn := s; used := usedIds st; draws := 0; klog := [] |}
              (free_ids_length r (usedIds st)) Hfuel)
    as (r' & st' & e & Hrun & _).
  rewrite Hrun. pose proof (LOCKING_server _ _ _ _ _ _ _ Hrun) as Hsrv.
  destruct e as [err |].
  - destruct Hsrv as [-> Hconn]. simpl in Hconn. simpl. split; [reflexivity |].
    eexists. split; [reflexivity |]. exact Hconn.
  - exfalso. destruct Hsrv as [Hfree _]. simpl in Hfree.
    destruct (LOCKING_claimed _ _ _ _ _ _ Hrun) as (c0 & -> & _ & Hrange).
    specialize (Hrange ltac:(unfold GoInt.MinInt; lia) Hmax).
    destruct (Hfull c0 Hrange) as [v Hv].
    change (lockKey (set_id r c0)) with (candidateLockKey r c0) in Hfree.
    congruence.
Qed.

Local Open Scope string_scope.
(** Range [0,1] with both keys held. *)
Lemma full_range_is_exhausted_witness :
  Get 3 (peer "A") (mkContext None) None []
      {| now := 0; table := {["raus:id:0" := ("B", 9)]} ∪ {["raus:id:1" := ("C", 9)]} |}
  = Some (ErrorID, None, Some ErrNoMoreId).
Proof.
  refine (proj1 (full_range_is_exhausted 3 (peer "A") (mkContext None) []
    {| now := 0; table := {["raus:id:0" := ("B", 9)]} ∪ {["raus:id:1" := ("C", 9)]} |}
    {| elapsed := timeout; usedIds := ∅; receives := [(0, timeout)]; llog := [] |}
    _ _ _ _ _ _ _)).
  - simpl. lia.
  - simpl. lia.
  - simpl. unfold GoInt.MaxInt. lia.
  - simpl. lia.
  - intros i Hi. simpl in Hi.
    assert (Hc : i = 0 \/ i = 1) by lia.
    destruct Hc as [-> | ->]; vm_compute; eauto.
  - reflexivity.
  - reflexivity.
Defined.
Local Close Scope string_scope.

(** X20. Against a server that honours SETNX and never fails, when no
    lock key of the range has a holder and LISTING left some id of the
    range out of its table, the first SETNX wins: [Get] returns an id of
    the range that was not heard, and the server has that id's lock key,
    held by the session's uuid for 60 seconds, and is otherwise as it
    was. *)
Theorem free_range_is_claimed (fuel : nat) (r : Raus) (ctx : context)
    (arrivals : list arrival) (s : server) (st : listing) :
  0 <= min r -> min r < max r -> max r < GoInt.MaxInt ->
  (Z.to_nat (max r - min r + 1) < fuel)%nat ->
  (forall i, min r <= i <= max r -> holder s (candidateLockKey r i) = None) ->
  LISTING r ctx listing0 arrivals = (st, None) ->
  Done ctx (elapsed st) = false ->
  free_ids r (usedIds st) <> [] ->
  exists i a,
    Get fuel r ctx None arrivals s = Some (i, Some (channel r), None) /\
    min r <= i <= max r /\ (i ∉ usedIds st) /\
    acquire fuel r ctx None arrivals s = Some a /\
    self a = set_id r i /\
    link a = write (candidateLockKey r i) (uuid r) (60 * Second) s /\
    holder (link a) (candidateLockKey r i) = Some (uuid r).
Proof.
  intros Hmin Hlt Hmax Hfuel Hfree Hl Hd Hne. unfold Get, acquire. rewrite Hl, Hd.
  destruct fuel as [| fuel']; [lia |].
  set (st0 := {| conn := s; used := usedIds st; draws := 0; klog := [] |}).
  destruct (LOCKING_body_nonempty r (Datatypes.S fuel') Hmin Hlt Hmax Hfuel st0 Hne)
    as [Hc Hb].
  set (cs := take maxCandidate (free_ids r (used st0))) in *.
  set (c := nth (Z.to_nat (Intn r (draws st0) (Z.of_nat (length cs)))) cs 0) in *.
  assert (Hin : c ∈ free_ids r (usedIds st))
    by (apply (subseteq_take maxCandidate); exact Hc).
  apply free_ids_spec in Hin as [Hrange Hout].
  assert (Hsetnx : SetNX (candidateLockKey r c) (uuid r) (60 * Second) (conn st0) =
                   (Ok true, write (candidateLockKey r c) (uuid r) (60 * Second) s)).
  { cbn [SetNX server_redis conn st0]. rewrite (Hfree c Hrange). reflexivity. }
  rewrite Hsetnx in Hb. cbn [fst snd] in Hb.
  change (LOCKING (Datatypes.S fuel') (Datatypes.S fuel') r st0)
    with (match LOCKING_body (Datatypes.S fuel') r st0 with
          | None => None
          | Some (Continue (r', st')) => LOCKING fuel' (Datatypes.S fuel') r' st'
          | Some (Break (r', st')) => Some (r', st', None)
          | Some (Return e (r', st')) => Some (r', st', Some e)
          end).
  rewrite Hb. cbn [first self link conn id set_id channel].
  exists c. eexists. split; [reflexivity |].
  split; [exact Hrange |]. split; [exact Hout |].
  split; [reflexivity |]. cbn [self link conn].
  split; [reflexivity |]. split; [reflexivity |].
  apply holder_write. unfold Second. lia.
Qed.

Local Open Scope string_scope.
(** Range [0,1], nobody there. *)
Lemma free_range_is_claimed_witness :
  exists i a,
    Get 3 (peer "A") (mkContext None) None [] {| now := 0; table := ∅ |}
      = Some (i, Some (channel (peer "A")), None) /\
    min (peer "A") <= i <= max (peer "A") /\ (i ∉ (∅ : gset Z)) /\
    acquire 3 (peer "A") (mkContext None) None [] {| now := 0; table := ∅ |} = Some a /\
    self a = set_id (peer "A") i /\
    link a = write (candidateLockKey (peer "A") i) (uuid (peer "A")) (60 * Second)
                   {| now := 0; table := ∅ |} /\
    holder (link a) (candidateLockKey (peer "A") i) = Some (uuid (peer "A")).
Proof.
  refine (free_range_is_claimed 3 (peer "A") (mkContext None) []
    {| now := 0; table := ∅ |}
    {| elapsed := timeout; usedIds := ∅; receives := [(0, timeout)]; llog := [] |}
    _ _ _ _ _ _ _ _).
  - simpl. lia.
  - simpl. lia.
  - simpl. unfold GoInt.MaxInt. lia.
  - simpl. lia.
  - intros i _. reflexivity.
  - reflexivity.
  - reflexivity.
  - vm_compute. discriminate.
Defined.
Local Close Scope string_scope.
